(** * Cleaning cell of the solar-irradiance notebooks

    The three notebooks of the repository (Benin, Sierra Leone, Togo) share
    one "Outlier Detection and Cleaning" cell, which differs only in the name
    of the exported file.  This development embeds that cell and the pandas /
    scipy primitives it calls, and proves the properties the specification
    states about it.

    Numbers.  A finite reading is an exact rational ([Q]); a missing reading
    (pandas' NaN) is [None].  The median, the fill and the clip are taken on
    these rationals.  The standard scores are binary64 numbers (primitive
    floats): the test [> 3] is decided by their rounding, and the cell is
    modelled for any rounding of numpy's two reductions. *)

From Stdlib Require Import Floats QArith Qreals Reals Psatz Sorted.
From stdpp Require Import base list strings gmap.

(** ** Exact arithmetic on the non-missing values of a column *)

Definition dropna {A} (l : list (option A)) : list A := omap (fun o => o) l.

Definition Qsum (xs : list Q) : Q := foldr Qplus 0%Q xs.

Definition Qlen (xs : list Q) : Q := inject_Z (Z.of_nat (length xs)).

(** The arithmetic mean of the values that are present. *)
Definition mean (xs : list Q) : Q := (Qsum xs / Qlen xs)%Q.

(** Their variance: the square of the standard deviation with [ddof = 0]. *)
Definition variance (xs : list Q) : Q :=
  mean (map (fun x => ((x - mean xs) * (x - mean xs))%Q) xs).

Fixpoint insert_sorted (x : Q) (l : list Q) : list Q :=
  match l with
  | [] => [x]
  | y :: r => if Qle_bool x y then x :: l else y :: insert_sorted x r
  end.

Definition sort_values (xs : list Q) : list Q := foldr insert_sorted [] xs.

(** [Series.median()] on the values that are present: the middle value of
    the sorted values, the mean of the two middle values when their number is
    even, NaN when there is none. *)
Definition median_of (xs : list Q) : option Q :=
  let s := sort_values xs in
  let n := length s in
  if (n =? 0)%nat then None
  else if Nat.even n
       then Some ((nth (n / 2 - 1) s 0%Q + nth (n / 2) s 0%Q) / 2)%Q
       else Some (nth (n / 2) s 0%Q).

(** [Series.fillna(v)]: a NaN fill value leaves the column as it is. *)
Definition fillna (l : list (option Q)) (v : option Q) : list (option Q) :=
  match v with
  | None => l
  | Some q => map (fun o => match o with None => Some q | Some x => Some x end) l
  end.

(** [clip(lower=lo)] on one value: numpy's [maximum(x, lo)]. *)
Definition clip_value (lo x : Q) : Q := if Qle_bool lo x then x else lo.

Definition clip (lo : Q) (l : list (option Q)) : list (option Q) :=
  map (fun o => clip_value lo <$> o) l.

Definition Qltb (x y : Q) : bool := negb (Qle_bool y x).

(** ** Series and frames *)

Inductive Series :=
  | Float64 (values : list (option Q))
  | Object (values : list (option string)).

Definition series_len (s : Series) : nat :=
  match s with Float64 l => length l | Object l => length l end.

Inductive exn :=
  | KeyError (missing : list string)
  | TypeError.

(** Python exceptions: a computation returns a value or raises. *)
Definition result (A : Type) : Type := exn + A.

#[global] Instance result_ret : MRet result := fun A x => inr x.
#[global] Instance result_bind : MBind result := fun A B f m =>
  match m with inl e => inl e | inr a => f a end.

#[global] Instance result_fmap : FMap result := fun A B f m =>
  match m with inl e => inl e | inr a => inr (f a) end.

Definition raise {A} (e : exn) : result A := inl e.

(** A frame has a row index [0 .. nrows-1] and named columns, in order. *)
Record Frame (A : Type) := mkFrame { nrows : nat; columns : list (string * A) }.
Arguments mkFrame {A} _ _.
Arguments nrows {A} _.
Arguments columns {A} _.

Definition DataFrame := Frame Series.

Definition names {A} (d : Frame A) : list string := (columns d).*1.

(** [read_csv] gives distinct column names (it renames duplicates) and
    columns as long as the index. *)
Definition wf (t : DataFrame) : Prop :=
  NoDup (names t) /\ Forall (fun kv => series_len kv.2 = nrows t) (columns t).

#[global] Instance wf_dec t : Decision (wf t).
Proof. unfold wf. apply _. Defined.

Fixpoint assoc {A} (c : string) (l : list (string * A)) : option A :=
  match l with
  | [] => None
  | (k, v) :: r => if decide (k = c) then Some v else assoc c r
  end.

(** Writing under an existing name keeps the column's position; a new name
    is appended. *)
Fixpoint assoc_set {A} (c : string) (v : A) (l : list (string * A))
  : list (string * A) :=
  match l with
  | [] => [(c, v)]
  | (k, x) :: r =>
      if decide (k = c) then (k, v) :: r else (k, x) :: assoc_set c v r
  end.

(** [df[col]] *)
Definition getitem {A} (d : Frame A) (c : string) : result A :=
  match assoc c (columns d) with
  | Some s => mret s
  | None => raise (KeyError [c])
  end.

(** [df[cols]]: all the names must be columns of the frame. *)
Definition getitem_list {A} (d : Frame A) (cols : list string) : result (Frame A) :=
  match filter (fun c => assoc c (columns d) = None) cols with
  | [] => mret (mkFrame (nrows d)
                  (omap (fun c => pair c <$> assoc c (columns d)) cols))
  | missing => raise (KeyError missing)
  end.

(** [df[col] = s] *)
Definition setitem {A} (d : Frame A) (c : string) (s : A) : Frame A :=
  mkFrame (nrows d) (assoc_set c s (columns d)).

(** [df[cols] = value]: the columns of [value] are assigned to the names
    [cols], pairwise in order. *)
Definition setitem_list {A} (d : Frame A) (cols : list string) (value : Frame A)
  : Frame A :=
  foldl (fun acc kv => setitem acc kv.1 (kv.2).2) d (zip cols (columns value)).

(** [df.drop(columns=labels, errors=...)]: with [errors='ignore'] the labels
    that are not columns are skipped, with [errors='raise'] they are a
    [KeyError]. *)
Inductive errors_mode := errors_raise | errors_ignore.

Definition drop {A} (d : Frame A) (labels : list string) (errors : errors_mode)
  : result (Frame A) :=
  let kept := mkFrame (nrows d) (filter (fun kv => kv.1 ∉ labels) (columns d)) in
  match errors with
  | errors_ignore => mret kept
  | errors_raise =>
      match filter (fun c => assoc c (columns d) = None) labels with
      | [] => mret kept
      | missing => raise (KeyError missing)
      end
  end.

(** [frame.apply(f)], column by column, stopping at the first exception. *)
Fixpoint apply_columns {A B} (f : A -> result B) (cols : list (string * A))
  : result (list (string * B)) :=
  match cols with
  | [] => mret []
  | (c, s) :: r => y ← f s; ys ← apply_columns f r; mret ((c, y) :: ys)
  end.

Definition apply {A B} (f : A -> result B) (d : Frame A) : result (Frame B) :=
  cols ← apply_columns f (columns d);
  mret (mkFrame (nrows d) cols).

(** A total map over the columns ([.abs()], [> 3], [.clip(...)]). *)
Definition frame_map {A B} (f : A -> B) (d : Frame A) : Frame B :=
  mkFrame (nrows d) (prod_map (fun c => c) f <$> columns d).

(** [Series.median()] and [Series.clip(lower=lo)] are numeric: on a text
    column they raise. *)
Definition median (s : Series) : result (option Q) :=
  match s with
  | Float64 l => mret (median_of (dropna l))
  | Object _ => raise TypeError
  end.

Definition Series_clip (lo : Q) (s : Series) : result Series :=
  match s with
  | Float64 l => mret (Float64 (clip lo l))
  | Object _ => raise TypeError
  end.

(** [frame.any(axis=1)]: one boolean per row of the index. *)
Definition any_axis1 (d : Frame (list bool)) : list bool :=
  (fun i => existsb (fun kv => nth i kv.2 false) (columns d)) <$> seq 0 (nrows d).

(** Row labels selected by a boolean mask, and [df[mask]]. *)
Fixpoint mask_filter {A} (mask : list bool) (l : list A) : list A :=
  match mask, l with
  | b :: m, x :: r => if b then x :: mask_filter m r else mask_filter m r
  | _, _ => []
  end.

Definition mask_labels (mask : list bool) : list nat :=
  mask_filter mask (seq 0 (length mask)).

Definition Series_mask (mask : list bool) (s : Series) : Series :=
  match s with
  | Float64 l => Float64 (mask_filter mask l)
  | Object l => Object (mask_filter mask l)
  end.

Definition getitem_mask (d : DataFrame) (mask : list bool) : DataFrame :=
  mkFrame (length (mask_labels mask))
    (prod_map (fun c => c) (Series_mask mask) <$> columns d).

(** ** Export *)

Inductive field :=
  | FNum (q : Q)
  | FText (s : string)
  | FEmpty.

Definition csv := list (list field).

(** The field of row [i] of a column; NaN is written as the empty field. *)
Definition cell_field (s : Series) (i : nat) : field :=
  match s with
  | Float64 l => match l !! i with Some (Some q) => FNum q | _ => FEmpty end
  | Object l => match l !! i with Some (Some t) => FText t | _ => FEmpty end
  end.

(** [df.to_csv(path, index=...)], with the default [header=True]: the header
    line, then one line per row; with [index=True] each line starts with the
    row label (under an empty header name). *)
Definition to_csv (d : DataFrame) (index : bool) : csv :=
  ((if index then [FText EmptyString] else []) ++ (FText <$> names d)) ::
  ((fun i => (if index then [FNum (inject_Z (Z.of_nat i))] else []) ++
             ((fun kv => cell_field kv.2 i) <$> columns d))
     <$> seq 0 (nrows d)).

(** ** The notebook kernel and the cleaning cell *)

Inductive output :=
  | OutlierCount (n : nat)
  | OutlierRows (labels : list nat) (rows : DataFrame)
  | Exported (path : string).

Record Kernel := mkKernel {
  df : DataFrame;
  stdout : list output;
  files : gmap string csv
}.

(** A cell runs in the kernel: it returns or raises, and leaves the kernel
    as it was at that point. *)
Definition Cell (A : Type) : Type := Kernel -> result A * Kernel.

#[global] Instance cell_ret : MRet Cell := fun A x k => (inr x, k).
#[global] Instance cell_bind : MBind Cell := fun A B f m k =>
  match m k with
  | (inl e, k') => (inl e, k')
  | (inr a, k') => f a k'
  end.

Definition lift {A} (r : result A) : Cell A := fun k => (r, k).
Definition read_df : Cell DataFrame := fun k => (inr (df k), k).
Definition write_df (d : DataFrame) : Cell unit :=
  fun k => (inr tt, mkKernel d (stdout k) (files k)).
Definition print (o : output) : Cell unit :=
  fun k => (inr tt, mkKernel (df k) (stdout k ++ [o]) (files k)).
Definition write_file (path : string) (content : csv) : Cell unit :=
  fun k => (inr tt, mkKernel (df k) (stdout k) (<[path := content]> (files k))).

Fixpoint for_each {A} (l : list A) (body : A -> Cell unit) : Cell unit :=
  match l with
  | [] => mret tt
  | x :: r => body x;; for_each r body
  end.

Definition key_columns : list string :=
  ["GHI"; "DNI"; "DHI"; "ModA"; "ModB"; "WS"; "WSgust"].

(** ** Standard scores

    [scipy.stats.zscore(a, nan_policy='omit')] works in binary64: it takes
    numpy's [nanmean] and [nanstd] of the column (the mean and the standard
    deviation, with [ddof = 0], of the entries that are present) and returns
    [(a - mean) / std].  Whether a score exceeds 3 is decided on these
    rounded numbers, not on the exact quotient. *)

(** A reading as the binary64 number the column holds: the rational itself
    when it is one, the nearest one otherwise. *)
Definition Z2SF (z : Z) : spec_float :=
  match z with
  | Z0 => S754_zero false
  | Zpos p => S754_finite false p 0
  | Zneg p => S754_finite true p 0
  end.

Definition Q2F (q : Q) : float :=
  SF2Prim (SFdiv prec emax (Z2SF (Qnum q)) (Z2SF (Zpos (Qden q)))).

(** scipy's [_isconst]: the entries that are present are all equal (so also
    when there is none). *)
Definition isconst (xs : list Q) : bool :=
  match xs with
  | [] => true
  | y :: r => forallb (Qeq_bool y) r
  end.

(** numpy's two reductions of a column.  The order in which numpy adds up a
    column, and with it the last bits of the mean and of the deviation, is
    numpy's own: the cell is modelled for any pair of reductions. *)
Record Numpy := {
  nanmean : list (option Q) -> float;
  nanstd : list (option Q) -> float
}.

(** The reductions as numpy computes them on a contiguous column: a missing
    entry counts for zero in the sums, and a sum is taken pairwise (eight
    running sums on a column of at most 128 entries, two halves above). *)
Module pairwise.

Definition add_reduce (a : list float) : float := foldl PrimFloat.add 0%float a.

Fixpoint lanes (n : nat) (r rest : list float) : list float * list float :=
  match n with
  | O => (r, rest)
  | S n' =>
      if (8 <=? length rest)%nat
      then lanes n' (zip_with PrimFloat.add r (take 8 rest)) (skipn 8 rest)
      else (r, rest)
  end.

Definition tree (r : list float) : float :=
  match r with
  | [r0; r1; r2; r3; r4; r5; r6; r7] =>
      (((r0 + r1) + (r2 + r3)) + ((r4 + r5) + (r6 + r7)))%float
  | _ => add_reduce r
  end.

(** [fuel] bounds the halvings; the length of the column is enough. *)
Fixpoint pairwise_sum (fuel : nat) (a : list float) : float :=
  let n := length a in
  if (n <? 8)%nat then add_reduce a
  else if (n <=? 128)%nat
  then let (r, rest) := lanes n (take 8 a) (skipn 8 a) in
       foldl PrimFloat.add (tree r) rest
  else match fuel with
       | O => add_reduce a
       | S fuel' =>
           let n2 := (n / 2 - (n / 2) mod 8)%nat in
           (pairwise_sum fuel' (take n2 a) + pairwise_sum fuel' (skipn n2 a))%float
       end.

Definition sum (a : list float) : float := pairwise_sum (length a) a.

Definition count (l : list (option Q)) : float :=
  Q2F (inject_Z (Z.of_nat (length (dropna l)))).

Definition nanmean (l : list (option Q)) : float :=
  (sum ((fun o => match o with Some x => Q2F x | None => 0 end) <$> l)
   / count l)%float.

Definition nanvar (l : list (option Q)) : float :=
  let avg := nanmean l in
  (sum ((fun o => match o with
                  | Some x => (Q2F x - avg) * (Q2F x - avg)
                  | None => 0
                  end) <$> l)
   / count l)%float.

Definition nanstd (l : list (option Q)) : float := PrimFloat.sqrt (nanvar l).

End pairwise.

Definition numpy : Numpy :=
  {| nanmean := pairwise.nanmean; nanstd := pairwise.nanstd |}.

(** Closed decidable facts about the sample tables. *)
Ltac by_computation := apply (bool_decide_unpack _); vm_compute; exact I.

Section Notebook.
Variable np : Numpy.

(** The score of a reading [x] of the column [l]. *)
Definition score (l : list (option Q)) (x : Q) : float :=
  ((Q2F x - nanmean np l) / nanstd np l)%float.

(** [zscore(a, nan_policy='omit')]: a missing entry has a missing score, and
    so has every entry of a column whose readings are all equal. *)
Definition zscore_values (l : list (option Q)) : list (option float) :=
  if isconst (dropna l) then map (fun _ => None) l
  else map (fmap (score l)) l.

(** [zscore] is numeric: on a text column it raises. *)
Definition zscore (s : Series) : result (list (option float)) :=
  match s with
  | Float64 l => mret (zscore_values l)
  | Object _ => raise TypeError
  end.

(** [z_scores = df[key_columns].apply(zscore, nan_policy='omit')] *)
Definition z_scores (d : DataFrame) : result (Frame (list (option float))) :=
  sel ← getitem_list d key_columns;
  apply zscore sel.

(** [outliers = (z_scores.abs() > 3).any(axis=1)]; a missing score compares
    false. *)
Definition exceeds (k : float) (z : option float) : bool :=
  match z with Some s => (k <? s)%float | None => false end.

Definition outliers (d : DataFrame) : result (list bool) :=
  z ← z_scores d;
  mret (any_axis1
          (frame_map (map (exceeds 3)) (frame_map (map (fmap PrimFloat.abs)) z))).

(** The two [print]s: the number of flagged rows and [df[outliers][key_columns]]. *)
Definition report (mask : list bool) : Cell unit :=
  d ← read_df;
  print (OutlierCount (length (mask_labels mask)));;
  rows ← lift (getitem_list (getitem_mask d mask) key_columns);
  print (OutlierRows (mask_labels mask) rows).

(** [df[col] = df[col].fillna(df[col].median())] *)
Definition impute_column (col : string) : Cell unit :=
  d ← read_df;
  s ← lift (getitem d col);
  m ← lift (median s);
  match s with
  | Float64 l => write_df (setitem d col (Float64 (fillna l m)))
  | Object _ => lift (raise TypeError)
  end.

(** [df = df.drop(columns=['Comments'], errors='ignore')] *)
Definition drop_comments : Cell unit :=
  d ← read_df;
  d' ← lift (drop d ["Comments"] errors_ignore);
  write_df d'.

(** [df[key_columns] = df[key_columns].clip(lower=0)] *)
Definition clip_negative : Cell unit :=
  d ← read_df;
  sel ← lift (getitem_list d key_columns);
  clipped ← lift (apply (Series_clip 0) sel);
  write_df (setitem_list d key_columns clipped).

(** [df.to_csv(dest, index=False)] and the closing [print]. *)
Definition export (dest : string) : Cell unit :=
  d ← read_df;
  write_file dest (to_csv d false);;
  print (Exported dest).

(** The cell up to the export: outlier report, imputation, pruning, clipping. *)
Definition clean_steps : Cell unit :=
  mask ← (d ← read_df; lift (outliers d));
  report mask;;
  for_each key_columns impute_column;;
  drop_comments;;
  clip_negative.

Definition cleaning_cell (dest : string) : Cell unit :=
  clean_steps;; export dest.

(** The Benin notebook's cell; the two others differ by the file name only. *)
Definition benin_cell : Cell unit := cleaning_cell "data/benin_clean.csv".
Definition sierra_leone_cell : Cell unit := cleaning_cell "data/sierra_leone_clean.csv".
Definition togo_cell : Cell unit := cleaning_cell "data/togo_clean.csv".

(** The specification's operations, read off the cell. *)
Definition fresh (t : DataFrame) : Kernel := mkKernel t [] ∅.

Definition detect_outliers (t : DataFrame) : result (list nat) :=
  mask_labels <$> outliers t.

Definition clean (t : DataFrame) : result DataFrame :=
  let (r, k) := clean_steps (fresh t) in (fun _ => df k) <$> r.

(** ** A small table *)

Definition sample : DataFrame :=
  mkFrame 4
    [ ("Timestamp", Object [Some "2021-08-09 00:01"; Some "2021-08-09 00:02";
                            Some "2021-08-09 00:03"; Some "2021-08-09 00:04"]);
      ("GHI", Float64 [Some 1; Some 2; None; Some 100]%Q);
      ("DNI", Float64 [Some (-5); Some 0; Some 3; None]%Q);
      ("DHI", Float64 [None; None; None; None]);
      ("ModA", Float64 [Some (1#2); Some (3#2); Some 2; Some 4]%Q);
      ("ModB", Float64 [Some 1; Some 1; Some 1; Some 1]%Q);
      ("WS", Float64 [Some 0; None; Some (-1#10); Some 7]%Q);
      ("WSgust", Float64 [Some 3; Some 2; Some 1; Some 0]%Q);
      ("Cleaning", Float64 [Some 0; Some 0; Some 1; Some 0]%Q);
      ("Comments", Object [None; None; None; None]) ].

(** Every key column has a reading; row 11 is far from the others in [GHI],
    row 1 in [DHI]. *)
Definition outlier_sample : DataFrame :=
  mkFrame 12
    [ ("Timestamp", Object (replicate 12 (Some "2021-08-09")));
      ("GHI", Float64 (replicate 11 (Some 0%Q) ++ [Some 120%Q]));
      ("DNI", Float64 (replicate 12 (Some 1%Q)));
      ("DHI", Float64 ([None; Some (-2)%Q] ++ replicate 10 (Some 3%Q)));
      ("ModA", Float64 (replicate 12 (Some (1#2)%Q)));
      ("ModB", Float64 (replicate 12 (Some 1%Q)));
      ("WS", Float64 (replicate 12 (Some 0%Q)));
      ("WSgust", Float64 (replicate 12 (Some 3%Q)));
      ("Comments", Object (replicate 12 None)) ].


(** Eleven readings 1e200 and one reading 3e200 in [GHI]: the exact score
    of the last row is above 3, the squares of the deviations overflow. *)
Definition overflow_sample : DataFrame :=
  mkFrame 12
    [ ("GHI", Float64 (replicate 11 (Some (inject_Z (10 ^ 200)))
                       ++ [Some (inject_Z (3 * 10 ^ 200))]));
      ("DNI", Float64 (replicate 12 (Some 1%Q)));
      ("DHI", Float64 (replicate 12 (Some 1%Q)));
      ("ModA", Float64 (replicate 12 (Some 1%Q)));
      ("ModB", Float64 (replicate 12 (Some 1%Q)));
      ("WS", Float64 (replicate 12 (Some 1%Q)));
      ("WSgust", Float64 (replicate 12 (Some 1%Q))) ].

(** A table without the [WS] column. *)
Definition no_WS_sample : DataFrame :=
  mkFrame 2
    [ ("GHI", Float64 [Some 1; None]%Q);
      ("DNI", Float64 [Some 1; Some 2]%Q);
      ("DHI", Float64 [Some 1; Some 2]%Q);
      ("ModA", Float64 [Some 1; Some 2]%Q);
      ("ModB", Float64 [Some 1; Some 2]%Q);
      ("WSgust", Float64 [Some 1; Some 2]%Q) ].

(** ** Tables as the notebook reads them, and the cell in closed form *)

(** The readings of a numeric column. *)
Definition readings (t : DataFrame) (c : string) : option (list (option Q)) :=
  match assoc c (columns t) with
  | Some (Float64 l) => Some l
  | _ => None
  end.

(** Every key column is a numeric column of the table. *)
Definition has_key_columns (t : DataFrame) : bool :=
  forallb (fun c => bool_decide (is_Some (readings t c))) key_columns.

(** Every key column has a reading that is present. *)
Definition observed (t : DataFrame) : bool :=
  forallb (fun c => match readings t c with
                    | Some l => bool_decide (dropna l <> [])
                    | None => false
                    end) key_columns.

(** [on_keys ks f cols]: [f] on the columns named in [ks], the others kept. *)
Definition on_keys {A} (ks : list string) (f : A -> A) (cols : list (string * A))
  : list (string * A) :=
  (fun kv => if decide (kv.1 ∈ ks) then (kv.1, f kv.2) else kv) <$> cols.

(** The statement of the loop and the clipping, on one column. *)
Definition impute (s : Series) : Series :=
  match s with
  | Float64 l => Float64 (fillna l (median_of (dropna l)))
  | Object l => Object l
  end.

Definition floor0 (s : Series) : Series :=
  match s with
  | Float64 l => Float64 (clip 0 l)
  | Object l => Object l
  end.

(** What the cell leaves in [df], column by column: the text column gone,
    the key columns imputed then floored, the others as they were.
    [clean_steps_run] proves that the cell computes it. *)
Definition cleaned (t : DataFrame) : DataFrame :=
  mkFrame (nrows t)
    (on_keys key_columns (floor0 ∘ impute)
       (filter (fun kv => kv.1 ∉ ["Comments"]) (columns t))).

(** The flags of one column, and the mask of the table, in closed form. *)
Definition flags (l : list (option Q)) : list bool :=
  exceeds 3 <$> (fmap PrimFloat.abs <$> zscore_values l).

Definition flagged (t : DataFrame) (i : nat) : bool :=
  existsb (fun c => match readings t c with
                    | Some l => nth i (flags l) false
                    | None => false
                    end) key_columns.


(** ** The rest of the notebook *)

(** The table the second [print] of the cleaning cell shows:
    [df[outliers][key_columns]]. *)
Definition outlier_rows (t : DataFrame) (mask : list bool) : DataFrame :=
  mkFrame (length (mask_labels mask))
    (omap (fun c => pair c <$> (Series_mask mask <$> assoc c (columns t)))
       key_columns).

(** *** The profiling cell: the report of missing values *)

(** [Series.isna().sum()] *)
Fixpoint isna_sum {A} (l : list (option A)) : nat :=
  match l with
  | [] => 0
  | None :: r => S (isna_sum r)
  | Some _ :: r => isna_sum r
  end.

Definition Series_isna_sum (s : Series) : nat :=
  match s with Float64 l => isna_sum l | Object l => isna_sum l end.

(** [missing_values = df.isna().sum()], indexed by the column names. *)
Definition missing_values (d : DataFrame) : list (string * nat) :=
  prod_map (fun c => c) Series_isna_sum <$> columns d.

(** [(count / len(df)) * 100]; on an empty index every count is zero and the
    quotient is 0/0, a NaN. *)
Definition percentage_of (len count : nat) : option Q :=
  if (len =? 0)%nat then None
  else Some (inject_Z (Z.of_nat count) / inject_Z (Z.of_nat len) * 100)%Q.

(** [missing_percentage = (df.isna().sum() / len(df)) * 100] *)
Definition missing_percentage (d : DataFrame) : list (string * option Q) :=
  prod_map (fun c => c) (percentage_of (nrows d)) <$> missing_values d.

(** [missing_report]: one row per column of [df], with the two values. *)
Definition missing_report (d : DataFrame) : list (string * (nat * option Q)) :=
  zip_with (fun mv mp => (mv.1, (mv.2, mp.2))) (missing_values d) (missing_percentage d).

(** [missing_report[missing_report['Percentage'] > 5]], as printed; a NaN
    percentage compares false. *)
Definition over_5 (p : option Q) : bool :=
  match p with Some q => Qltb 5 q | None => false end.

Definition missing_report_over_5 (d : DataFrame)
  : list (string * (nat * option Q)) :=
  filter (fun row => over_5 row.2.2 = true) (missing_report d).

(** *** The cleaning-impact cell: [groupby('Cleaning')[...].mean()] *)

Section GroupBy.
Context {K : Type} (eqb leb : K -> K -> bool).

(** The group keys: the distinct values of the key column that are present,
    in increasing order ([sort=True], [dropna=True]). *)
Fixpoint insert_key (x : K) (l : list K) : list K :=
  match l with
  | [] => [x]
  | y :: r =>
      if eqb x y then l
      else if leb x y then x :: l
      else y :: insert_key x r
  end.

Definition group_keys (keys : list (option K)) : list K :=
  foldr insert_key [] (dropna keys).

(** The rows of a group, as a mask over the index. *)
Definition in_group (g : K) (k : option K) : bool :=
  match k with Some x => eqb x g | None => false end.

(** The readings of a column in the rows of a group. *)
Definition group_values (g : K) (keys : list (option K)) (vals : list (option Q))
  : list Q :=
  dropna (mask_filter (in_group g <$> keys) vals).

(** [.mean()] of a group: the mean of its readings, NaN when it has none. *)
Definition group_mean (g : K) (keys : list (option K)) (vals : list (option Q))
  : option Q :=
  match group_values g keys vals with
  | [] => None
  | xs => Some (mean xs)
  end.

Definition group_means (keys : list (option K)) (vals : list (option Q))
  : list (option Q) :=
  (fun g => group_mean g keys vals) <$> group_keys keys.
End GroupBy.

(** The rows in which the key is present. *)
Definition flag_present {K} (k : option K) : bool :=
  match k with Some _ => true | None => false end.

(** The group keys as a column, and the means of a column by group; the
    mean of a text column raises. *)
Definition group_index (key : Series) : Series :=
  match key with
  | Float64 ks => Float64 (Some <$> group_keys Qeq_bool Qle_bool ks)
  | Object ks => Object (Some <$> group_keys String.eqb String.leb ks)
  end.

Definition Series_group_means (key : Series) (s : Series) : result Series :=
  match s with
  | Float64 vs =>
      mret (Float64 (match key with
                     | Float64 ks => group_means Qeq_bool Qle_bool ks vs
                     | Object ks => group_means String.eqb String.leb ks vs
                     end))
  | Object _ => raise TypeError
  end.

(** [df.groupby(by_col)[cols].mean().reset_index()]: one row per group, the key
    first, then the means. *)
Definition groupby_mean (d : DataFrame) (by_col : string) (cols : list string)
  : result DataFrame :=
  key ← getitem d by_col;
  sel ← getitem_list d cols;
  means ← apply (Series_group_means key) sel;
  mret (mkFrame (series_len (group_index key))
          ((by_col, group_index key) :: columns means)).

(** [cleaning_impact = df.groupby('Cleaning')[['ModA', 'ModB']].mean().reset_index()] *)
Definition cleaning_impact (d : DataFrame) : result DataFrame :=
  groupby_mean d "Cleaning" ["ModA"; "ModB"].

(** [outlier_sample] with a [Cleaning] flag set in its last six rows. *)
Definition flag_sample : DataFrame :=
  setitem outlier_sample "Cleaning"
    (Float64 (replicate 6 (Some 0%Q) ++ replicate 6 (Some 1%Q))).

(** ** Association lists *)

Section Assoc.
Context {A : Type}.
Implicit Types (c : string) (cols : list (string * A)).

Lemma assoc_None c cols : assoc c cols = None <-> c ∉ cols.*1.
Proof.
  induction cols as [|[k v] r IH]; simpl.
  - split; [intros _; apply not_elem_of_nil | done].
  - destruct (decide (k = c)) as [->|Hk].
    + split; [done | intros Hn; exfalso; apply Hn; left].
    + rewrite IH, not_elem_of_cons.
      split; [intros Hn; split; [congruence | done] | by intros [_ Hn]].
Qed.

Lemma assoc_Some_names c cols s : assoc c cols = Some s -> c ∈ cols.*1.
Proof.
  intros H. destruct (decide (c ∈ cols.*1)) as [|Hn]; [done|].
  apply assoc_None in Hn. congruence.
Qed.

Lemma assoc_elem_of c cols s : assoc c cols = Some s -> (c, s) ∈ cols.
Proof.
  induction cols as [|[k v] r IH]; simpl; [done|].
  destruct (decide (k = c)) as [->|Hk].
  - intros [= ->]. left.
  - intros Hs. right. auto.
Qed.

Lemma assoc_NoDup c cols s :
  NoDup cols.*1 -> (c, s) ∈ cols -> assoc c cols = Some s.
Proof.
  induction cols as [|[k v] r IH]; simpl; intros Hnd Hin.
  - by apply elem_of_nil in Hin.
  - apply NoDup_cons in Hnd as [Hk Hnd].
    apply elem_of_cons in Hin as [[= -> ->]|Hin].
    + by rewrite decide_True.
    + rewrite decide_False; [auto|].
      intros ->. apply Hk. apply list_elem_of_fmap. by exists (c, s).
Qed.

Lemma assoc_set_names c v cols :
  c ∈ cols.*1 -> (assoc_set c v cols).*1 = cols.*1.
Proof.
  induction cols as [|[k x] r IH]; simpl; intros Hin.
  - by apply elem_of_nil in Hin.
  - case_decide; simpl; [done|].
    apply elem_of_cons in Hin as [->|Hin]; [done|]. f_equal. by apply IH.
Qed.

Lemma assoc_assoc_set c c' v cols :
  assoc c' (assoc_set c v cols) = if decide (c = c') then Some v else assoc c' cols.
Proof.
  induction cols as [|[k x] r IH]; simpl.
  - repeat case_decide; congruence.
  - destruct (decide (k = c)) as [->|Hk]; simpl.
    + repeat case_decide; congruence.
    + rewrite IH. repeat case_decide; congruence.
Qed.

Lemma assoc_filter (labels : list string) c cols :
  c ∉ labels -> assoc c (filter (fun kv => kv.1 ∉ labels) cols) = assoc c cols.
Proof.
  intros HP. induction cols as [|[k x] r IH]; [done|].
  rewrite filter_cons. simpl. destruct (decide (k ∉ labels)) as [Hk|Hk]; simpl.
  - by rewrite IH.
  - rewrite decide_False; [done|]. by intros ->.
Qed.

(** Under distinct names, a write by name is a map over the columns. *)
Lemma assoc_set_fmap c v cols :
  NoDup cols.*1 -> c ∈ cols.*1 ->
  assoc_set c v cols =
  (fun kv => if decide (kv.1 = c) then (kv.1, v) else kv) <$> cols.
Proof.
  induction cols as [|[k x] r IH]; simpl; intros Hnd Hin.
  - by apply elem_of_nil in Hin.
  - apply NoDup_cons in Hnd as [Hk Hnd].
    case_decide; subst; simpl.
    + f_equal. symmetry. rewrite <- (list_fmap_id r) at 2.
      apply Forall_fmap_ext, Forall_forall. intros [k' x'] Hin'. simpl.
      rewrite decide_False; [done|].
      intros ->. apply Hk, list_elem_of_fmap. by exists (c, x').
    + apply elem_of_cons in Hin as [->|Hin]; [done|]. by rewrite IH.
Qed.
End Assoc.

Section OnKeys.
Context {A : Type}.
Implicit Types (c : string) (ks : list string) (cols : list (string * A)).

Lemma on_keys_nil f cols : on_keys [] f cols = cols.
Proof.
  unfold on_keys. rewrite <- (list_fmap_id cols) at 2.
  apply Forall_fmap_ext, Forall_forall. intros kv _.
  rewrite decide_False; [done | apply not_elem_of_nil].
Qed.

Lemma on_keys_names ks f cols : (on_keys ks f cols).*1 = cols.*1.
Proof.
  unfold on_keys. rewrite <- list_fmap_compose.
  apply Forall_fmap_ext, Forall_forall. intros kv _. simpl. by case_decide.
Qed.

Lemma assoc_on_keys ks f c cols :
  assoc c (on_keys ks f cols) =
  if decide (c ∈ ks) then f <$> assoc c cols else assoc c cols.
Proof.
  induction cols as [|[k x] r IH]; simpl.
  - by case_decide.
  - destruct (decide (k ∈ ks)) as [Hk|Hk]; simpl;
      destruct (decide (k = c)) as [->|Hkc]; simpl.
    + by rewrite decide_True.
    + apply IH.
    + by rewrite decide_False.
    + apply IH.
Qed.

Lemma on_keys_cons c ks f cols s :
  NoDup cols.*1 -> assoc c cols = Some s -> c ∉ ks ->
  on_keys ks f (assoc_set c (f s) cols) = on_keys (c :: ks) f cols.
Proof.
  intros Hnd Hc Hks.
  rewrite assoc_set_fmap by eauto using assoc_Some_names.
  unfold on_keys. rewrite <- list_fmap_compose.
  apply Forall_fmap_ext, Forall_forall. intros [k x] Hin. simpl.
  destruct (decide (k = c)) as [->|Hk]; simpl.
  - rewrite decide_False by done. rewrite decide_True by left.
    apply (assoc_NoDup _ _ _ Hnd) in Hin. congruence.
  - destruct (decide (k ∈ ks)) as [Hin'|Hin'].
    + rewrite decide_True; [done | by right].
    + rewrite decide_False; [done|]. rewrite not_elem_of_cons. done.
Qed.

Lemma on_keys_compose ks f g cols :
  on_keys ks g (on_keys ks f cols) = on_keys ks (g ∘ f) cols.
Proof.
  unfold on_keys. rewrite <- list_fmap_compose.
  apply Forall_fmap_ext, Forall_forall. intros [k x] _. simpl.
  destruct (decide (k ∈ ks)); simpl; [by rewrite decide_True | by rewrite decide_False].
Qed.

Lemma on_keys_filter (labels : list string) ks f cols :
  filter (fun kv => kv.1 ∉ labels) (on_keys ks f cols) =
  on_keys ks f (filter (fun kv => kv.1 ∉ labels) cols).
Proof.
  induction cols as [|[k x] r IH]; [done|].
  unfold on_keys in *. rewrite fmap_cons, !filter_cons. simpl.
  destruct (decide (k ∈ ks)); simpl; destruct (decide (k ∉ labels)); simpl;
    rewrite ?decide_True, ?decide_False by done; by rewrite IH.
Qed.

Lemma on_keys_ext ks f g cols :
  (forall c s, c ∈ ks -> (c, s) ∈ cols -> f s = g s) ->
  on_keys ks f cols = on_keys ks g cols.
Proof.
  intros H. apply Forall_fmap_ext, Forall_forall. intros [k x] Hin. simpl.
  case_decide; [|done]. f_equal. eauto.
Qed.
End OnKeys.

(** ** Selecting and applying *)

Section Select.
Context {A : Type}.
Implicit Types (d : Frame A) (ks : list string).

Lemma missing_nil d ks :
  (forall c, c ∈ ks -> is_Some (assoc c (columns d))) ->
  filter (fun c => assoc c (columns d) = None) ks = [].
Proof.
  induction ks as [|c r IH]; intros H; [done|].
  rewrite filter_cons. destruct (H c) as [s Hs]; [left|].
  rewrite decide_False by congruence.
  apply IH. intros c' Hc'. apply H. by right.
Qed.

Lemma getitem_list_ok d ks :
  (forall c, c ∈ ks -> is_Some (assoc c (columns d))) ->
  getitem_list d ks =
  inr (mkFrame (nrows d) (omap (fun c => pair c <$> assoc c (columns d)) ks)).
Proof. intros H. unfold getitem_list. by rewrite missing_nil. Qed.

Lemma getitem_list_KeyError d ks c :
  c ∈ ks -> assoc c (columns d) = None ->
  exists missing, getitem_list d ks = inl (KeyError missing) /\ c ∈ missing.
Proof.
  intros Hc Hn. unfold getitem_list.
  assert (Hin : c ∈ filter (fun c => assoc c (columns d) = None) ks)
    by (by apply list_elem_of_filter).
  destruct (filter _ ks) as [|m ms] eqn:E.
  - by apply elem_of_nil in Hin.
  - by exists (m :: ms).
Qed.

Lemma select_apply {B} (f : A -> result B) (g : A -> B) d ks :
  (forall c, c ∈ ks -> exists s, assoc c (columns d) = Some s /\ f s = inr (g s)) ->
  getitem_list d ks ≫= apply f =
  inr (mkFrame (nrows d)
         (omap (fun c => pair c <$> (g <$> assoc c (columns d))) ks)).
Proof.
  intros H. rewrite getitem_list_ok.
  2:{ intros c Hc. destruct (H c Hc) as (s & -> & _). by eexists. }
  assert (E : apply_columns f
                (omap (fun c => pair c <$> assoc c (columns d)) ks) =
              inr (omap (fun c => pair c <$> (g <$> assoc c (columns d))) ks)).
  { induction ks as [|c r IH]; [done|].
    destruct (H c) as (s & Hs & Hf); [left|].
    csimpl. rewrite Hs. csimpl. rewrite Hf. csimpl.
    rewrite IH; [done|].
    intros c' Hc'. apply H. by right. }
  match goal with |- inr ?x ≫= _ = _ => change (apply f x = inr
    (mkFrame (nrows d) (omap (fun c => pair c <$> (g <$> assoc c (columns d))) ks))) end.
  unfold apply. cbn [nrows columns]. by rewrite E.
Qed.
End Select.

(** ** Running the cell *)

Lemma cell_bind_run {A B} (m : Cell A) (f : A -> Cell B) k :
  (m ≫= f) k =
  match m k with (inl e, k') => (inl e, k') | (inr a, k') => f a k' end.
Proof. reflexivity. Qed.

Lemma readings_Some t c l :
  readings t c = Some l <-> assoc c (columns t) = Some (Float64 l).
Proof.
  unfold readings. destruct (assoc c (columns t)) as [[l'|l']|]; split; congruence.
Qed.

Lemma has_key_columns_spec t :
  has_key_columns t = true <->
  forall c, c ∈ key_columns -> exists l, readings t c = Some l.
Proof.
  unfold has_key_columns. rewrite forallb_forall. split.
  - intros H c Hc. apply list_elem_of_In, H, bool_decide_eq_true in Hc.
    by destruct Hc as [l Hl]; exists l.
  - intros H c Hc. apply bool_decide_eq_true. apply list_elem_of_In, H in Hc.
    destruct Hc as [l Hl]. by exists l.
Qed.

Lemma observed_spec t :
  observed t = true <->
  forall c, c ∈ key_columns -> exists l, readings t c = Some l /\ dropna l <> [].
Proof.
  unfold observed. rewrite forallb_forall. split.
  - intros H c Hc. apply list_elem_of_In, H in Hc.
    destruct (readings t c) as [l|]; [|done].
    exists l. split; [done | by apply bool_decide_eq_true in Hc].
  - intros H c Hc. apply list_elem_of_In, H in Hc.
    destruct Hc as (l & -> & Hl). by apply bool_decide_eq_true.
Qed.

Lemma observed_has_key_columns t : observed t = true -> has_key_columns t = true.
Proof.
  rewrite observed_spec, has_key_columns_spec. intros H c Hc.
  destruct (H c Hc) as (l & Hl & _). by exists l.
Qed.

Lemma key_columns_NoDup : NoDup key_columns.
Proof. apply (bool_decide_unpack _). by vm_compute. Qed.

Lemma Comments_not_key : "Comments" ∉ key_columns.
Proof. apply (bool_decide_unpack _). by vm_compute. Qed.

Lemma assoc_prod_map {A B} (f : A -> B) c (cols : list (string * A)) :
  assoc c (prod_map (fun c => c) f <$> cols) = f <$> assoc c cols.
Proof.
  induction cols as [|[k x] r IH]; [done|]. csimpl.
  destruct (decide (k = c)); [done | apply IH].
Qed.

(** The mask the cell computes is [flagged], row by row. *)
Lemma flags_select (t : DataFrame) ks i :
  (forall c, c ∈ ks -> exists l, readings t c = Some l) ->
  existsb (fun kv : string * list bool => nth i kv.2 false)
    (prod_map (fun c => c) (map (exceeds 3)) <$>
      (prod_map (fun c => c) (map (fmap PrimFloat.abs)) <$>
        omap (fun c => pair c <$>
               ((fun s => match s with Float64 l => zscore_values l | Object _ => [] end)
                  <$> assoc c (columns t))) ks)) =
  existsb (fun c => match readings t c with
                    | Some l => nth i (flags l) false
                    | None => false
                    end) ks.
Proof.
  induction ks as [|c r IH]; intros H; [done|].
  destruct (H c) as [l Hl]; [left|].
  csimpl. rewrite Hl. apply readings_Some in Hl. rewrite Hl. csimpl.
  f_equal. apply IH.
  intros c' Hc'. apply H. by right.
Qed.

Lemma outliers_run t :
  has_key_columns t = true -> outliers t = inr (flagged t <$> seq 0 (nrows t)).
Proof.
  intros Hk. rewrite has_key_columns_spec in Hk.
  unfold outliers, z_scores.
  rewrite (select_apply zscore
             (fun s => match s with Float64 l => zscore_values l | Object _ => [] end)).
  2:{ intros c Hc. destruct (Hk c Hc) as [l Hl]. apply readings_Some in Hl.
      by exists (Float64 l). }
  change (inr ?x ≫= ?f) with (f x). cbv beta. unfold mret, result_ret. f_equal.
  unfold any_axis1, frame_map. cbn [nrows columns].
  apply list_fmap_ext. intros _ i _.
  by rewrite flags_select.
Qed.

Lemma report_run mask k :
  has_key_columns (df k) = true ->
  exists rows,
    report mask k =
    (inr tt, mkKernel (df k)
               (stdout k ++ [OutlierCount (length (mask_labels mask));
                             OutlierRows (mask_labels mask) rows])
               (files k)).
Proof.
  intros Hk. rewrite has_key_columns_spec in Hk.
  unfold report. rewrite cell_bind_run. cbn [read_df].
  rewrite cell_bind_run. cbn [print].
  rewrite cell_bind_run. unfold lift at 1. cbn [df stdout files].
  rewrite getitem_list_ok.
  2:{ intros c Hc. destruct (Hk c Hc) as [l Hl]. apply readings_Some in Hl.
      unfold getitem_mask. cbn [columns]. rewrite assoc_prod_map, Hl. by eexists. }
  eexists. unfold print. cbn [df stdout files].
  by rewrite <- app_assoc.
Qed.

Lemma impute_column_run c l k :
  readings (df k) c = Some l ->
  impute_column c k =
  (inr tt, mkKernel (setitem (df k) c (impute (Float64 l))) (stdout k) (files k)).
Proof.
  intros Hl. apply readings_Some in Hl.
  unfold impute_column. rewrite cell_bind_run. cbn [read_df].
  rewrite cell_bind_run. unfold lift at 1, getitem. rewrite Hl. cbn [mret result_ret].
  by rewrite cell_bind_run.
Qed.

Lemma readings_setitem t c c' s :
  c <> c' -> readings (setitem t c s) c' = readings t c'.
Proof.
  intros Hne. unfold readings, setitem. cbn [columns].
  rewrite assoc_assoc_set. by rewrite decide_False.
Qed.

(** The loop over the key columns: each one is imputed from its own
    readings, whatever the loop has already done to the others. *)
Lemma impute_loop_run ks : forall k,
  NoDup ks -> NoDup (names (df k)) ->
  (forall c, c ∈ ks -> exists l, readings (df k) c = Some l) ->
  for_each ks impute_column k =
  (inr tt, mkKernel (mkFrame (nrows (df k)) (on_keys ks impute (columns (df k))))
             (stdout k) (files k)).
Proof.
  induction ks as [|c r IH]; intros k Hks Hnd Hk.
  - cbn [for_each]. rewrite on_keys_nil. by destruct k as [[n cols] out fs].
  - apply NoDup_cons in Hks as [Hc Hr].
    destruct (Hk c) as [l Hl]; [left|].
    cbn [for_each]. rewrite cell_bind_run, (impute_column_run _ _ _ Hl).
    pose proof Hl as Hl'. apply readings_Some in Hl'.
    rewrite IH; cbn [df stdout files]; try done.
    + unfold setitem. cbn [nrows columns]. do 2 f_equal. f_equal.
      by apply on_keys_cons.
    + unfold names, setitem. cbn [columns].
      rewrite assoc_set_names; [done | by eapply assoc_Some_names].
    + intros c' Hc'. rewrite readings_setitem; [apply Hk; by right|].
      by intros ->.
Qed.

Lemma drop_comments_run k :
  drop_comments k =
  (inr tt, mkKernel (mkFrame (nrows (df k))
                       (filter (fun kv => kv.1 ∉ ["Comments"]) (columns (df k))))
             (stdout k) (files k)).
Proof. reflexivity. Qed.

(** [df[cols] = value] with the values computed beforehand from [src]. *)
Lemma setitem_list_run {A} (g : A -> A) (src : list (string * A)) ks :
  forall (n : nat) (acc : list (string * A)),
  NoDup ks -> NoDup acc.*1 ->
  (forall c, c ∈ ks -> exists s, assoc c src = Some s /\ assoc c acc = Some s) ->
  setitem_list (mkFrame n acc) ks
    (mkFrame n (omap (fun c => pair c <$> (g <$> assoc c src)) ks)) =
  mkFrame n (on_keys ks g acc).
Proof.
  unfold setitem_list. cbn [columns].
  induction ks as [|c r IH]; intros n acc Hks Hnd H.
  - csimpl. by rewrite on_keys_nil.
  - apply NoDup_cons in Hks as [Hc Hr].
    destruct (H c) as (s & Hs & Hs'); [left|].
    csimpl. rewrite Hs. csimpl. unfold setitem at 2. cbn [nrows columns].
    rewrite IH; try done.
    + f_equal. by apply on_keys_cons.
    + rewrite assoc_set_names; [done | by eapply assoc_Some_names].
    + intros c' Hc'. destruct (H c') as (s' & Hs1 & Hs2); [by right|].
      exists s'. split; [done|].
      rewrite assoc_assoc_set, decide_False; [done | by intros ->].
Qed.

Lemma clip_negative_run k :
  NoDup (names (df k)) -> has_key_columns (df k) = true ->
  clip_negative k =
  (inr tt, mkKernel (mkFrame (nrows (df k)) (on_keys key_columns floor0 (columns (df k))))
             (stdout k) (files k)).
Proof.
  intros Hnd Hk. rewrite has_key_columns_spec in Hk.
  assert (Hf : forall c, c ∈ key_columns ->
            exists s, assoc c (columns (df k)) = Some s /\
                      Series_clip 0 s = inr (floor0 s)).
  { intros c Hc. destruct (Hk c Hc) as [l Hl]. apply readings_Some in Hl.
    by exists (Float64 l). }
  pose proof (select_apply (Series_clip 0) floor0 (df k) key_columns Hf) as E.
  unfold clip_negative. rewrite cell_bind_run. cbn [read_df].
  rewrite cell_bind_run. unfold lift at 1.
  destruct (getitem_list (df k) key_columns) as [e|sel] eqn:Esel; [discriminate E|].
  change (apply (Series_clip 0) sel = inr
            (mkFrame (nrows (df k))
               (omap (fun c => pair c <$> (floor0 <$> assoc c (columns (df k))))
                  key_columns))) in E.
  rewrite cell_bind_run. unfold lift at 1. rewrite E.
  unfold write_df. f_equal. f_equal.
  destruct (df k) as [n cols] eqn:Ed. cbn [nrows columns] in *.
  apply setitem_list_run; [apply key_columns_NoDup | done |].
  intros c Hc. destruct (Hf c Hc) as (s & Hs & _). by exists s.
Qed.

(** *** The cell computes [cleaned] *)
Lemma clean_steps_run k :
  NoDup (names (df k)) -> has_key_columns (df k) = true ->
  exists out, clean_steps k = (inr tt, mkKernel (cleaned (df k)) (stdout k ++ out) (files k)).
Proof.
  intros Hnd Hk. pose proof Hk as Hk'. rewrite has_key_columns_spec in Hk'.
  destruct (report_run (flagged (df k) <$> seq 0 (nrows (df k))) k Hk) as [rows Hrep].
  eexists. unfold clean_steps.
  rewrite cell_bind_run, cell_bind_run. cbn [read_df]. unfold lift at 1.
  rewrite (outliers_run _ Hk).
  rewrite cell_bind_run, Hrep.
  rewrite cell_bind_run, impute_loop_run;
    cbn [df stdout files]; [| apply key_columns_NoDup | done | done].
  rewrite cell_bind_run, drop_comments_run. cbn [df stdout files nrows columns].
  rewrite clip_negative_run; cbn [df stdout files nrows columns].
  - unfold cleaned. do 2 f_equal.
    rewrite on_keys_filter.
    by rewrite on_keys_compose.
  - unfold names. cbn [columns].
    rewrite on_keys_filter, on_keys_names.
    apply (NoDup_fmap_2_strong fst).
    + intros [c1 s1] [c2 s2] H1 H2 Heq. simpl in Heq. subst c2.
      apply list_elem_of_filter in H1 as [_ H1], H2 as [_ H2].
      apply (assoc_NoDup _ _ _ Hnd) in H1, H2. congruence.
    + apply NoDup_filter. eapply NoDup_fmap_1. exact Hnd.
  - apply has_key_columns_spec. intros c Hc.
    destruct (Hk' c Hc) as [l Hl]. apply readings_Some in Hl.
    exists (fillna l (median_of (dropna l))). apply readings_Some. cbn [columns].
    rewrite assoc_filter.
    + by rewrite assoc_on_keys, decide_True, Hl.
    + intros Hin. apply list_elem_of_singleton in Hin. subst c.
      by apply Comments_not_key.
Qed.

Theorem clean_cleaned t :
  NoDup (names t) -> has_key_columns t = true -> clean t = inr (cleaned t).
Proof.
  intros Hnd Hk. unfold clean.
  destruct (clean_steps_run (fresh t) Hnd Hk) as [out ->]. reflexivity.
Qed.

(** *** When the cell raises *)

Lemma apply_columns_raise {B} (f : Series -> result B) cols c s e :
  (c, s) ∈ cols -> f s = inl e -> exists e', apply_columns f cols = inl e'.
Proof.
  intros Hin Hf. induction cols as [|[k x] r IH]; [by apply elem_of_nil in Hin|].
  apply elem_of_cons in Hin as [[= <- <-]|Hin]; csimpl.
  - rewrite Hf. by eexists.
  - destruct (f x) as [e1|y]; [by eexists|]. csimpl.
    destruct (IH Hin) as [e' ->]. by eexists.
Qed.

Lemma getitem_list_inr {A} (d : Frame A) ks sel :
  getitem_list d ks = inr sel ->
  sel = mkFrame (nrows d) (omap (fun c => pair c <$> assoc c (columns d)) ks).
Proof.
  unfold getitem_list. destruct (filter _ ks); [|done]. by intros [= <-].
Qed.

Lemma outliers_raise t c :
  c ∈ key_columns -> readings t c = None -> exists e, outliers t = inl e.
Proof.
  intros Hc Hr. unfold outliers, z_scores.
  destruct (assoc c (columns t)) as [s|] eqn:Hs.
  - destruct (getitem_list t key_columns) as [e|sel] eqn:Esel; [by eexists|].
    apply getitem_list_inr in Esel. subst sel.
    assert (exists e', apply_columns zscore
              (omap (fun c => pair c <$> assoc c (columns t)) key_columns) = inl e')
      as [e' He'].
    { apply (apply_columns_raise zscore _ c s TypeError).
      - apply list_elem_of_omap. exists c. by rewrite Hs.
      - unfold readings in Hr. rewrite Hs in Hr. by destruct s. }
    exists e'.
    match goal with |- (inr ?x ≫= _) ≫= ?f = _ =>
      change (apply zscore x ≫= f = inl e') end.
    unfold apply. cbn [columns]. by rewrite He'.
  - destruct (getitem_list_KeyError t key_columns c Hc Hs) as (m & -> & _).
    by eexists.
Qed.

Lemma clean_steps_raise k c :
  c ∈ key_columns -> readings (df k) c = None ->
  exists e, clean_steps k = (inl e, k).
Proof.
  intros Hc Hr. destruct (outliers_raise _ _ Hc Hr) as [e He].
  exists e. unfold clean_steps.
  rewrite cell_bind_run, cell_bind_run. cbn [read_df]. unfold lift. by rewrite He.
Qed.

Lemma has_key_columns_false t :
  has_key_columns t = false -> exists c, c ∈ key_columns /\ readings t c = None.
Proof.
  intros H. unfold has_key_columns in H.
  apply not_true_iff_false in H. rewrite forallb_forall in H.
  destruct (decide (Forall (fun c => is_Some (readings t c)) key_columns)) as [HF|HF].
  - exfalso. apply H. intros c Hc. apply bool_decide_eq_true.
    rewrite Forall_forall in HF. apply HF. apply list_elem_of_In. exact Hc.
  - apply not_Forall_Exists in HF; [|apply _].
    apply Exists_exists in HF as (c & Hc & Hn).
    exists c. split; [exact Hc|]. simpl in Hn.
    destruct (readings t c) as [l|]; [|reflexivity]. exfalso. apply Hn. by exists l.
Qed.

(** [clean] returns exactly on the tables that have the key columns. *)
Lemma clean_inr_inv t t' : clean t = inr t' -> has_key_columns t = true.
Proof.
  intros H. destruct (has_key_columns t) eqn:E; [done|].
  apply has_key_columns_false in E as (c & Hc & Hr).
  destruct (clean_steps_raise (fresh t) c Hc Hr) as [e He].
  unfold clean in H. rewrite He in H. discriminate H.
Qed.

Lemma clean_inv t t' :
  NoDup (names t) -> clean t = inr t' ->
  has_key_columns t = true /\ t' = cleaned t.
Proof.
  intros Hnd H. pose proof (clean_inr_inv _ _ H) as Hk. split; [done|].
  rewrite (clean_cleaned _ Hnd Hk) in H. congruence.
Qed.

(** ** Columns: sorting, median, filling, flooring *)

Lemma insert_sorted_length x l : length (insert_sorted x l) = S (length l).
Proof.
  induction l as [|y r IH]; [done|]. simpl.
  destruct (Qle_bool x y); simpl; by rewrite ?IH.
Qed.

Lemma sort_values_length xs : length (sort_values xs) = length xs.
Proof.
  induction xs as [|x r IH]; [done|]. simpl.
  by rewrite insert_sorted_length, IH.
Qed.

Lemma insert_sorted_Permutation x l : insert_sorted x l ≡ₚ x :: l.
Proof.
  induction l as [|y r IH]; [done|]. simpl.
  destruct (Qle_bool x y); [done|]. rewrite IH. apply Permutation_swap.
Qed.

Lemma sort_values_Permutation xs : sort_values xs ≡ₚ xs.
Proof.
  induction xs as [|x r IH]; [done|]. simpl.
  by rewrite insert_sorted_Permutation, IH.
Qed.

Lemma insert_sorted_Sorted x l :
  Sorted Qle l -> Sorted Qle (insert_sorted x l).
Proof.
  induction l as [|y r IH]; intros Hs; simpl.
  - by repeat constructor.
  - destruct (Qle_bool x y) eqn:E.
    + apply Qle_bool_iff in E. constructor; [exact Hs | by constructor].
    + assert (Hyx : (y <= x)%Q).
      { apply Qlt_le_weak, Qnot_le_lt. intros Hle.
        apply Qle_bool_iff in Hle. congruence. }
      apply Sorted_inv in Hs as [Hs Hhd]. constructor; [by apply IH|].
      destruct r as [|z r']; simpl; [by constructor|].
      destruct (Qle_bool x z); constructor; [done|].
      by apply HdRel_inv in Hhd.
Qed.

Lemma sort_values_Sorted xs : Sorted Qle (sort_values xs).
Proof.
  induction xs as [|x r IH]; simpl; [constructor | by apply insert_sorted_Sorted].
Qed.

Lemma median_of_nil : median_of [] = None.
Proof. reflexivity. Qed.

Lemma median_of_is_Some xs : xs <> [] -> is_Some (median_of xs).
Proof.
  intros Hne. unfold median_of. rewrite sort_values_length.
  destruct xs as [|x r]; [done|]. cbn [length Nat.eqb].
  destruct (Nat.even _); by eexists.
Qed.

Lemma dropna_nil {A} (l : list (option A)) :
  dropna l = [] <-> forall i, i < length l -> l !! i = Some None.
Proof.
  unfold dropna. induction l as [|[x|] r IH]; csimpl.
  - split; [intros _ i Hi; lia | done].
  - split; [done|]. intros H. specialize (H 0 ltac:(lia)). done.
  - rewrite IH. split.
    + intros H [|i] Hi; [done|]. apply H. lia.
    + intros H i Hi. apply (H (S i)). lia.
Qed.

Lemma fillna_length l v : length (fillna l v) = length l.
Proof. destruct v; simpl; [apply length_map | done]. Qed.

Lemma fillna_lookup l m i :
  fillna l (Some m) !! i = (fun o => Some (default m o)) <$> l !! i.
Proof.
  unfold fillna. rewrite list_lookup_fmap.
  by destruct (l !! i) as [[x|]|].
Qed.

Lemma clip_length lo l : length (clip lo l) = length l.
Proof. apply length_map. Qed.

Lemma clip_lookup lo l i : clip lo l !! i = fmap (clip_value lo) <$> l !! i.
Proof. unfold clip. by rewrite list_lookup_fmap. Qed.

Lemma clip_value_below x : (x < 0)%Q -> clip_value 0 x = 0%Q.
Proof.
  intros Hx. unfold clip_value. destruct (Qle_bool 0 x) eqn:E; [|done].
  apply Qle_bool_iff in E. exfalso. by apply (Qlt_not_le x 0).
Qed.

Lemma clip_value_above x : (0 <= x)%Q -> clip_value 0 x = x.
Proof.
  intros Hx. unfold clip_value. apply Qle_bool_iff in Hx. by rewrite Hx.
Qed.

Lemma clip_value_nonneg x : (0 <= clip_value 0 x)%Q.
Proof.
  unfold clip_value. destruct (Qle_bool 0 x) eqn:E.
  - by apply Qle_bool_iff.
  - apply Qle_refl.
Qed.

Lemma clip_value_idemp x : clip_value 0 (clip_value 0 x) = clip_value 0 x.
Proof. apply clip_value_above, clip_value_nonneg. Qed.

(** ** The cleaned table, column by column *)

Lemma names_cleaned t :
  names (cleaned t) = filter (fun c => c ∉ ["Comments"]) (names t).
Proof.
  unfold names, cleaned. cbn [columns]. rewrite on_keys_names.
  induction (columns t) as [|[k x] r IH]; [done|].
  rewrite filter_cons. csimpl. rewrite filter_cons.
  destruct (decide (k ∉ ["Comments"])); csimpl; by rewrite IH.
Qed.

Lemma assoc_cleaned t c :
  c <> "Comments" ->
  assoc c (columns (cleaned t)) =
  if decide (c ∈ key_columns) then (floor0 ∘ impute) <$> assoc c (columns t)
  else assoc c (columns t).
Proof.
  intros Hc. unfold cleaned. cbn [columns].
  rewrite assoc_on_keys, assoc_filter; [done|].
  by intros ->%list_elem_of_singleton.
Qed.

Lemma readings_cleaned t c l :
  c ∈ key_columns -> readings t c = Some l ->
  readings (cleaned t) c = Some (clip 0 (fillna l (median_of (dropna l)))).
Proof.
  intros Hc Hl. apply readings_Some in Hl. apply readings_Some.
  rewrite assoc_cleaned, decide_True, Hl; [done..|].
  intros ->. by apply Comments_not_key.
Qed.

Lemma cleaned_lengths t :
  Forall (fun kv => series_len kv.2 = nrows t) (columns t) ->
  Forall (fun kv => series_len kv.2 = nrows t) (columns (cleaned t)).
Proof.
  intros H. unfold cleaned, on_keys. cbn [columns].
  apply Forall_fmap, Forall_forall. intros [k s] Hin.
  apply list_elem_of_filter in Hin as [_ Hin].
  rewrite Forall_forall in H. specialize (H _ Hin). simpl in *.
  case_decide; [|done]. destruct s as [l|l]; simpl in *; [|done].
  by rewrite clip_length, fillna_length.
Qed.

Lemma cleaned_NoDup t : NoDup (names t) -> NoDup (names (cleaned t)).
Proof. intros H. rewrite names_cleaned. by apply NoDup_filter. Qed.

Lemma cleaned_wf t : wf t -> wf (cleaned t).
Proof.
  intros [Hnd Hlen]. split; [by apply cleaned_NoDup | exact (cleaned_lengths t Hlen)].
Qed.

Lemma readings_length t c l : wf t -> readings t c = Some l -> length l = nrows t.
Proof.
  intros [_ Hlen] Hl. apply readings_Some, assoc_elem_of in Hl.
  rewrite Forall_forall in Hlen. apply (Hlen _ Hl).
Qed.

(** ** Properties of the cleaning procedure *)

(** C1. On a table whose key columns each hold at least one reading, the
    imputation loop replaces every missing entry of a key column by the
    median of the readings of that column, and [clean] returns a table in
    which no key column has a missing entry in any row (the entries that
    were missing hold that median, floored at zero like every other entry by
    the clipping that follows the loop). *)
Theorem clean_no_missing (t : DataFrame) :
  wf t -> observed t = true ->
  exists t', clean t = inr t' /\
    forall c, c ∈ key_columns ->
      exists l m l',
        readings t c = Some l /\ median_of (dropna l) = Some m /\
        (forall k, df k = t ->
           exists k', for_each key_columns impute_column k = (inr tt, k') /\
             readings (df k') c = Some (fillna l (Some m)) /\
             forall i, l !! i = Some None ->
               fillna l (Some m) !! i = Some (Some m)) /\
        readings t' c = Some l' /\ length l' = nrows t' /\
        (forall i, i < nrows t' -> exists x, l' !! i = Some (Some x)) /\
        (forall i, l !! i = Some None -> l' !! i = Some (Some (clip_value 0 m))).
Proof.
  intros Hwf Hobs. pose proof Hwf as [Hnd _].
  pose proof (observed_has_key_columns _ Hobs) as Hk.
  exists (cleaned t). split; [by apply clean_cleaned|].
  rewrite observed_spec in Hobs. intros c Hc.
  destruct (Hobs c Hc) as (l & Hl & Hne).
  destruct (median_of_is_Some _ Hne) as [m Hm].
  exists l, m, (clip 0 (fillna l (Some m))).
  pose proof (readings_length _ _ _ Hwf Hl) as Hlen.
  split; [done|]. split; [done|]. split.
  { intros k <-. eexists. split.
    - apply impute_loop_run; [apply key_columns_NoDup | done |].
      by apply has_key_columns_spec.
    - cbn [df]. split.
      + apply readings_Some. cbn [columns]. apply readings_Some in Hl.
        rewrite assoc_on_keys, decide_True, Hl by done. simpl. by rewrite Hm.
      + intros i Hi. by rewrite fillna_lookup, Hi. }
  repeat split.
  - rewrite <- Hm. by apply readings_cleaned.
  - by rewrite clip_length, fillna_length.
  - intros i Hi. cbn [cleaned nrows] in Hi. rewrite <- Hlen in Hi.
    apply lookup_lt_is_Some_2 in Hi as [o Ho].
    rewrite clip_lookup, fillna_lookup, Ho. by eexists.
  - intros i Hi. by rewrite clip_lookup, fillna_lookup, Hi.
Qed.

(** C2. In the table [clean] returns, every reading of every key column is
    at least zero (a reading is an entry that is present; when the key
    columns of the input each hold a reading, that is every entry of every
    key column).  The clipping statement of the cell replaces each key
    column by its floor at zero: a reading below zero becomes zero, a
    reading at or above zero is kept. *)
Theorem clean_nonnegative (t t' : DataFrame) :
  NoDup (names t) -> clean t = inr t' ->
  (forall c l' i x, c ∈ key_columns -> readings t' c = Some l' ->
     l' !! i = Some (Some x) -> (0 <= x)%Q) /\
  (wf t -> observed t = true ->
   forall c i, c ∈ key_columns -> i < nrows t' ->
     exists l' x, readings t' c = Some l' /\ l' !! i = Some (Some x) /\
                  (0 <= x)%Q) /\
  (forall k, NoDup (names (df k)) -> has_key_columns (df k) = true ->
     exists k', clip_negative k = (inr tt, k') /\
       forall c l, c ∈ key_columns -> readings (df k) c = Some l ->
         readings (df k') c = Some (clip 0 l) /\
         forall i x, l !! i = Some (Some x) ->
           clip 0 l !! i = Some (Some (clip_value 0 x)) /\
           ((x < 0)%Q -> clip_value 0 x = 0%Q) /\
           ((0 <= x)%Q -> clip_value 0 x = x)).
Proof.
  intros Hnd Hclean. apply clean_inv in Hclean as [Hk ->]; [|done].
  assert (Hpos : forall c l' i x, c ∈ key_columns ->
            readings (cleaned t) c = Some l' ->
            l' !! i = Some (Some x) -> (0 <= x)%Q).
  { intros c l' i x Hc Hl' Hx.
    rewrite has_key_columns_spec in Hk. destruct (Hk c Hc) as [l Hl].
    rewrite (readings_cleaned _ _ _ Hc Hl) in Hl'. injection Hl' as <-.
    rewrite clip_lookup in Hx.
    destruct (fillna l _ !! i) as [[y|]|]; simplify_eq/=.
    apply clip_value_nonneg. }
  split; [exact Hpos|]. split.
  - intros Hwf Hobs c i Hc Hi. rewrite observed_spec in Hobs.
    destruct (Hobs c Hc) as (l & Hl & Hne).
    destruct (median_of_is_Some _ Hne) as [m Hm].
    pose proof (readings_cleaned _ _ _ Hc Hl) as Hl'. rewrite Hm in Hl'.
    cbn [cleaned nrows] in Hi. rewrite <- (readings_length _ _ _ Hwf Hl) in Hi.
    apply lookup_lt_is_Some_2 in Hi as [o Ho].
    assert (Hx : clip 0 (fillna l (Some m)) !! i
                 = Some (Some (clip_value 0 (default m o))))
      by (by rewrite clip_lookup, fillna_lookup, Ho).
    eexists _, _. split; [exact Hl'|]. split; [exact Hx|]. apply clip_value_nonneg.
  - intros k Hndk Hkk. eexists. split; [by apply clip_negative_run|].
    intros c l Hc Hl. cbn [df]. split.
    + apply readings_Some in Hl. apply readings_Some. cbn [columns].
      by rewrite assoc_on_keys, decide_True, Hl.
    + intros i x Hx. rewrite clip_lookup, Hx.
      split; [done|]. split; [apply clip_value_below | apply clip_value_above].
Qed.

(** ** The outlier mask *)

Lemma mask_filter_seq mask : forall a j,
  j ∈ mask_filter mask (seq a (length mask)) <->
  exists i, j = a + i /\ mask !! i = Some true.
Proof.
  induction mask as [|b m IH]; intros a j; cbn [length seq mask_filter].
  - split; [by intros ?%elem_of_nil | by intros (i & _ & ?)].
  - destruct b.
    + rewrite elem_of_cons, IH. split.
      * intros [->|(i & -> & Hi)]; [exists 0 | exists (S i)]; split; (lia || done).
      * intros ([|i] & -> & Hi); [left; lia | right; exists i; split; [lia | done]].
    + rewrite IH. split.
      * intros (i & -> & Hi). exists (S i). split; [lia | done].
      * intros ([|i] & -> & Hi); [done | exists i; split; [lia | done]].
Qed.

Lemma mask_labels_spec mask i : i ∈ mask_labels mask <-> mask !! i = Some true.
Proof.
  unfold mask_labels. rewrite mask_filter_seq. split.
  - by intros (i' & -> & Hi).
  - intros Hi. by exists i.
Qed.

Lemma flagged_lookup t i :
  (flagged t <$> seq 0 (nrows t)) !! i = Some true <->
  i < nrows t /\ flagged t i = true.
Proof.
  rewrite list_lookup_fmap. split.
  - intros H. destruct (seq 0 (nrows t) !! i) as [j|] eqn:E; [|done].
    apply lookup_seq in E as [-> Hlt]. simpl in H. split; [done | congruence].
  - intros [Hlt Hf]. rewrite lookup_seq_lt by done. simpl. congruence.
Qed.

(** *** Pairwise sums *)

(** The fuel of [pairwise_sum] is never used up: any bound above the length
    of the column gives the same sum. *)
Lemma pairwise_sum_fuel fuel : forall fuel' a,
  length a <= fuel -> length a <= fuel' ->
  pairwise.pairwise_sum fuel a = pairwise.pairwise_sum fuel' a.
Proof.
  induction fuel as [|fuel IH]; intros [|fuel'] a H H'; cbn [pairwise.pairwise_sum];
    destruct (length a <? 8) eqn:E8; try reflexivity;
    destruct (length a <=? 128) eqn:E128; try reflexivity;
    apply Nat.ltb_ge in E8; apply Nat.leb_gt in E128; try lia.
  pose proof (Nat.div_mod_eq (length a) 2) as Hd.
  pose proof (Nat.mod_upper_bound (length a) 2) as Hm.
  pose proof (Nat.mod_upper_bound (length a / 2) 8) as Hm8.
  f_equal; apply IH; rewrite ?length_take, ?length_skipn; lia.
Qed.

(** *** The score that is compared with 3 *)

Lemma Qltb_lt x y : Qltb x y = true <-> (x < y)%Q.
Proof.
  unfold Qltb. rewrite negb_true_iff. split.
  - intros H. apply Qnot_le_lt. intros Hle. apply Qle_bool_iff in Hle. congruence.
  - intros H. destruct (Qle_bool y x) eqn:E; [|done].
    apply Qle_bool_iff in E. exfalso. by apply (Qlt_not_le x y).
Qed.

(** One entry of a column is flagged exactly when it is present, the
    readings of the column are not all equal and its score exceeds 3 in
    absolute value. *)
Lemma flags_spec l i :
  nth i (flags l) false = true <->
  exists x, l !! i = Some (Some x) /\ isconst (dropna l) = false /\
            (3 <? PrimFloat.abs (score l x))%float = true.
Proof.
  unfold flags, zscore_values. rewrite nth_lookup.
  destruct (isconst (dropna l)); rewrite !list_lookup_fmap;
    destruct (l !! i) as [[x|]|]; simpl.
  - split; [done | by intros (x' & _ & ? & _)].
  - split; [done | by intros (x' & _ & ? & _)].
  - split; [done | by intros (x' & _ & ? & _)].
  - split; [by exists x|]. by intros (x' & [= <-] & _ & H).
  - split; [done | by intros (x' & [=] & _)].
  - split; [done | by intros (x' & [=] & _)].
Qed.



(** *** The exact score *)







(** C3. [clean] returns a table with the row count of its input, every
    column of which still has one entry per row.  No row is dropped, the
    rows in the outlier mask included: in every row, flagged or not, each
    reading of a key column is still there (floored at zero) and each entry
    of the other columns kept is as it was. *)
Theorem clean_keeps_rows (t t' : DataFrame) :
  wf t -> clean t = inr t' ->
  nrows t' = nrows t /\
  Forall (fun kv => series_len kv.2 = nrows t) (columns t') /\
  exists mask, outliers t = inr mask /\ length mask = nrows t /\
    (forall i, mask !! i = Some true -> i < nrows t') /\
    forall i, i < nrows t ->
      (forall c l x, c ∈ key_columns -> readings t c = Some l ->
         l !! i = Some (Some x) ->
         exists l', readings t' c = Some l' /\
                    l' !! i = Some (Some (clip_value 0 x))) /\
      (forall c s, c ∉ key_columns -> c <> "Comments" ->
         assoc c (columns t) = Some s ->
         assoc c (columns t') = Some s /\ series_len s = nrows t').
Proof.
  intros Hwf Hclean. pose proof Hwf as [Hnd Hlen].
  apply clean_inv in Hclean as [Hk ->]; [|done].
  split; [done|]. split; [by apply cleaned_lengths|].
  exists (flagged t <$> seq 0 (nrows t)).
  split; [by apply outliers_run|].
  split; [by rewrite length_fmap, length_seq|].
  split.
  { intros i Hi. by apply flagged_lookup in Hi as [Hi _]. }
  intros i Hi. split.
  - intros c l x Hc Hl Hx. eexists. split; [by apply readings_cleaned|].
    rewrite clip_lookup. destruct (median_of (dropna l)) as [m|].
    + by rewrite fillna_lookup, Hx.
    + cbn [fillna]. by rewrite Hx.
  - intros c s Hc Hne Hs. rewrite assoc_cleaned, decide_False by done.
    split; [done|]. apply assoc_elem_of in Hs.
    rewrite Forall_forall in Hlen. apply (Hlen _ Hs).
Qed.

(** C5. The value the loop writes into the missing entries of a key column
    is the median of the readings that column has in the input.  When the
    loop reaches the column, whatever it has done to the columns before, the
    column is still as in the input; the statement of the loop then fills
    its missing entries with the median of its readings and keeps its
    readings.  [clean] returns the column so filled, floored at zero. *)
Theorem impute_uses_own_median (t : DataFrame) (c : string) (l : list (option Q))
    (pre post : list string) :
  NoDup (names t) -> has_key_columns t = true ->
  key_columns = pre ++ c :: post ->
  readings t c = Some l -> dropna l <> [] ->
  exists m k1 k2,
    median_of (dropna l) = Some m /\
    for_each pre impute_column (fresh t) = (inr tt, k1) /\
    readings (df k1) c = Some l /\
    impute_column c k1 = (inr tt, k2) /\
    readings (df k2) c = Some (fillna l (Some m)) /\
    (forall i, l !! i = Some None -> fillna l (Some m) !! i = Some (Some m)) /\
    (forall i x, l !! i = Some (Some x) -> fillna l (Some m) !! i = Some (Some x)) /\
    (forall k3, for_each key_columns impute_column (fresh t) = (inr tt, k3) ->
       readings (df k3) c = Some (fillna l (Some m))) /\
    (forall t', clean t = inr t' ->
       readings t' c = Some (clip 0 (fillna l (Some m)))).
Proof.
  intros Hnd Hk Hsplit Hl Hne. pose proof Hk as Hk'.
  destruct (median_of_is_Some _ Hne) as [m Hm].
  rewrite has_key_columns_spec in Hk'.
  pose proof key_columns_NoDup as Hkeys. rewrite Hsplit in Hkeys.
  apply NoDup_app in Hkeys as (Hpre & Hdisj & Hpost).
  assert (Hc : c ∈ key_columns) by (rewrite Hsplit; apply elem_of_app; right; left).
  assert (Hcpre : c ∉ pre) by (intros Hin; apply (Hdisj c Hin); left).
  exists m. eexists _, _. split; [done|]. split.
  { apply impute_loop_run; [done | done |].
    intros c' Hc'. apply Hk'. rewrite Hsplit. apply elem_of_app. by left. }
  cbn [df fresh nrows columns stdout files].
  assert (Hl1 : readings (mkFrame (nrows t) (on_keys pre impute (columns t))) c = Some l).
  { apply readings_Some. cbn [columns]. rewrite assoc_on_keys, decide_False by done.
    by apply readings_Some. }
  split; [done|]. split.
  { rewrite (impute_column_run c l); [|done]. cbn [df stdout files]. reflexivity. }
  cbn [df]. split.
  { unfold readings, setitem. cbn [columns]. rewrite assoc_assoc_set, decide_True by done.
    simpl. by rewrite Hm. }
  split. { intros i Hi. by rewrite fillna_lookup, Hi. }
  split. { intros i x Hi. by rewrite fillna_lookup, Hi. }
  split.
  - intros k3 Hk3. rewrite impute_loop_run in Hk3; [| apply key_columns_NoDup | done | done].
    injection Hk3 as <-. apply readings_Some. cbn [df fresh columns].
    apply readings_Some in Hl. rewrite assoc_on_keys, decide_True, Hl by done.
    simpl. by rewrite Hm.
  - intros t' [_ ->]%clean_inv; [|done]. rewrite <- Hm. by apply readings_cleaned.
Qed.

(** The specification's example: the median of [1, 2, missing, 100] is 2,
    the missing entry becomes 2 and clipping keeps it. *)
Example median_example :
  median_of (dropna [Some 1; Some 2; None; Some 100]%Q) = Some 2%Q /\
  clip 0 (fillna [Some 1; Some 2; None; Some 100]%Q (Some 2%Q))
  = [Some 1; Some 2; Some 2; Some 100]%Q.
Proof. by vm_compute. Qed.

(** The specification's example: clipping -5 gives 0. *)
Example clip_example : clip_value 0 (-5) = 0%Q.
Proof. reflexivity. Qed.

(** ** A second run *)

Lemma dropna_clip lo l : dropna (clip lo l) = clip_value lo <$> dropna l.
Proof.
  unfold dropna, clip. induction l as [|[x|] r IH]; csimpl; by rewrite ?IH.
Qed.

Lemma fillna_filled l v : Forall is_Some l -> fillna l v = l.
Proof.
  intros H. destruct v as [q|]; [|done]. simpl.
  induction H as [|o r [x ->] _ IH]; [done|]. simpl. by rewrite IH.
Qed.

Lemma fillna_Some_filled l m : Forall is_Some (fillna l (Some m)).
Proof.
  simpl. apply Forall_fmap, Forall_forall. intros [x|] _; by eexists.
Qed.

Lemma clip_filled lo l : Forall is_Some l -> Forall is_Some (clip lo l).
Proof.
  intros H. apply Forall_fmap. eapply Forall_impl; [exact H|].
  intros o [x ->]. by eexists.
Qed.

Lemma clip_idemp l : clip 0 (clip 0 l) = clip 0 l.
Proof.
  unfold clip. rewrite <- list_fmap_compose.
  apply list_fmap_ext. intros _ [x|] _; simpl; [|done].
  by rewrite clip_value_idemp.
Qed.

(** A floored, imputed column has nothing left to impute... *)
Lemma impute_cleaned s : impute (floor0 (impute s)) = floor0 (impute s).
Proof.
  destruct s as [l|l]; [|done]. simpl. f_equal.
  destruct (median_of (dropna l)) as [m|] eqn:Hm.
  - apply fillna_filled, clip_filled, fillna_Some_filled.
  - cbn [fillna]. rewrite dropna_clip.
    assert (Hnil : dropna l = []).
    { destruct (dropna l) as [|x r] eqn:E; [done|].
      destruct (median_of_is_Some (x :: r)) as [m' Hm']; [done|]. congruence. }
    by rewrite Hnil.
Qed.

(** ... and nothing left to clip. *)
Lemma floor0_idemp s : floor0 (floor0 s) = floor0 s.
Proof. destruct s as [l|l]; [|done]. simpl. by rewrite clip_idemp. Qed.

Lemma filter_labels_idemp {A} (labels : list string) (cols : list (string * A)) :
  filter (fun kv => kv.1 ∉ labels) (filter (fun kv => kv.1 ∉ labels) cols) =
  filter (fun kv => kv.1 ∉ labels) cols.
Proof.
  induction cols as [|[k x] r IH]; [done|].
  rewrite filter_cons. simpl. destruct (decide (k ∉ labels)); [|done].
  rewrite filter_cons. simpl. rewrite decide_True by done. by rewrite IH.
Qed.

Lemma filter_labels_absent {A} (labels : list string) (cols : list (string * A)) :
  (forall c, c ∈ labels -> c ∉ cols.*1) ->
  filter (fun kv => kv.1 ∉ labels) cols = cols.
Proof.
  intros H. induction cols as [|[k x] r IH]; [done|].
  rewrite filter_cons. simpl. rewrite decide_True.
  - f_equal. apply IH. intros c Hc Hin. apply (H c Hc). by right.
  - intros Hk. apply (H k Hk). left.
Qed.

Lemma on_keys_fixed {A} ks (f : A -> A) (cols : list (string * A)) :
  (forall c s, c ∈ ks -> (c, s) ∈ cols -> f s = s) -> on_keys ks f cols = cols.
Proof.
  intros H. unfold on_keys. rewrite <- (list_fmap_id cols) at 2.
  apply Forall_fmap_ext, Forall_forall. intros [k x] Hin. simpl.
  case_decide; [|done]. f_equal. eauto.
Qed.

Lemma cleaned_column t c s :
  c ∈ key_columns -> (c, s) ∈ columns (cleaned t) ->
  exists s0, s = floor0 (impute s0).
Proof.
  intros Hc Hin. unfold cleaned, on_keys in Hin. cbn [columns] in Hin.
  apply list_elem_of_fmap in Hin as ([k x] & Heq & _). simpl in Heq.
  case_decide; simplify_eq; [by exists x | done].
Qed.

Lemma cleaned_no_Comments t : "Comments" ∉ names (cleaned t).
Proof.
  rewrite names_cleaned. intros [Hn _]%list_elem_of_filter.
  apply Hn. left.
Qed.

(** C6. [clean] applied to a table it has returned returns that table: the
    second run has nothing to impute, no column to drop and nothing to clip
    (each of the three steps leaves the kernel as it finds it), so the row
    count and all the values are as after the first run. *)
Theorem clean_idempotent (t t' : DataFrame) :
  NoDup (names t) -> clean t = inr t' ->
  clean t' = inr t' /\
  for_each key_columns impute_column (fresh t') = (inr tt, fresh t') /\
  drop_comments (fresh t') = (inr tt, fresh t') /\
  clip_negative (fresh t') = (inr tt, fresh t').
Proof.
  intros Hnd [Hk ->]%clean_inv; [|done].
  pose proof (cleaned_NoDup _ Hnd) as Hnd'.
  assert (Hk' : has_key_columns (cleaned t) = true).
  { rewrite has_key_columns_spec in *. intros c Hc.
    destruct (Hk c Hc) as [l Hl]. eexists. by apply readings_cleaned. }
  assert (Himp : on_keys key_columns impute (columns (cleaned t)) = columns (cleaned t)).
  { apply on_keys_fixed. intros c s Hc Hin.
    destruct (cleaned_column _ _ _ Hc Hin) as [s0 ->]. apply impute_cleaned. }
  assert (Hclip : on_keys key_columns floor0 (columns (cleaned t)) = columns (cleaned t)).
  { apply on_keys_fixed. intros c s Hc Hin.
    destruct (cleaned_column _ _ _ Hc Hin) as [s0 ->]. apply floor0_idemp. }
  assert (Hdrop : filter (fun kv : string * Series => kv.1 ∉ ["Comments"])
                    (columns (cleaned t)) = columns (cleaned t)).
  { apply filter_labels_absent. intros c ->%list_elem_of_singleton.
    apply cleaned_no_Comments. }
  repeat split.
  - rewrite (clean_cleaned _ Hnd' Hk'). f_equal.
    unfold cleaned at 1. rewrite Hdrop, <- on_keys_compose, Himp, Hclip.
    reflexivity.
  - rewrite impute_loop_run; cbn [df fresh stdout files]; try done.
    + by rewrite Himp.
    + apply key_columns_NoDup.
    + by apply has_key_columns_spec.
  - rewrite drop_comments_run. cbn [df fresh stdout files]. by rewrite Hdrop.
  - rewrite clip_negative_run; cbn [df fresh stdout files]; try done.
    by rewrite Hclip.
Qed.

(** ** Failure, pruning and export *)

Lemma outliers_KeyError t missing :
  getitem_list t key_columns = inl (KeyError missing) ->
  outliers t = inl (KeyError missing).
Proof. intros H. unfold outliers, z_scores. by rewrite H. Qed.

Lemma clean_steps_KeyError k missing :
  getitem_list (df k) key_columns = inl (KeyError missing) ->
  clean_steps k = (inl (KeyError missing), k).
Proof.
  intros H%outliers_KeyError. unfold clean_steps.
  rewrite cell_bind_run, cell_bind_run. cbn [read_df]. unfold lift. by rewrite H.
Qed.

(** C7. When a key column is absent, the cell raises a [KeyError] that
    names it, at its first statement: the kernel is left exactly as it was,
    so the table is the input table, nothing has been printed and no file
    has been written; and [clean] returns that error. *)
Theorem missing_key_column_is_fatal (k : Kernel) (dest c : string) :
  c ∈ key_columns -> c ∉ names (df k) ->
  exists missing, c ∈ missing /\
    cleaning_cell dest k = (inl (KeyError missing), k) /\
    clean (df k) = inl (KeyError missing).
Proof.
  intros Hc Hn. apply assoc_None in Hn.
  destruct (getitem_list_KeyError (df k) key_columns c Hc Hn) as (missing & Hm & Hin).
  exists missing. split; [done|]. split.
  - unfold cleaning_cell. by rewrite cell_bind_run, (clean_steps_KeyError _ _ Hm).
  - unfold clean. by rewrite (clean_steps_KeyError (fresh (df k)) _ Hm).
Qed.

Lemma names_filter {A} (labels : list string) (cols : list (string * A)) :
  (filter (fun kv => kv.1 ∉ labels) cols).*1 = filter (fun c => c ∉ labels) cols.*1.
Proof.
  induction cols as [|[k x] r IH]; [done|].
  rewrite filter_cons. csimpl. rewrite filter_cons.
  destruct (decide (k ∉ labels)); csimpl; by rewrite IH.
Qed.

Lemma filter_names_absent (labels l : list string) :
  (forall c, c ∈ labels -> c ∉ l) -> filter (fun c => c ∉ labels) l = l.
Proof.
  intros H. induction l as [|k r IH]; [done|].
  rewrite filter_cons, decide_True.
  - f_equal. apply IH. intros c Hc Hin. apply (H c Hc). by right.
  - intros Hk. apply (H k Hk). left.
Qed.

(** C8. The pruning statement never raises: it removes the [Comments]
    column when the table has one and leaves the kernel as it is when the
    table has none.  So [clean] returns on every table that has the key
    columns, with or without [Comments], and the table it returns has the
    columns of its input but [Comments], in their order. *)
Theorem drop_comments_optional (t : DataFrame) :
  NoDup (names t) -> has_key_columns t = true ->
  (forall k, exists k',
     drop_comments k = (inr tt, k') /\
     ("Comments" ∉ names (df k')) /\
     names (df k') = filter (fun c => c ∉ ["Comments"]) (names (df k)) /\
     ("Comments" ∉ names (df k) -> k' = k)) /\
  exists t', clean t = inr t' /\
    ("Comments" ∉ names t') /\
    names t' = filter (fun c => c ∉ ["Comments"]) (names t) /\
    ("Comments" ∉ names t -> names t' = names t).
Proof.
  intros Hnd Hk. split.
  - intros k. eexists. split; [apply drop_comments_run|]. cbn [df].
    unfold names. cbn [columns]. rewrite names_filter. repeat split.
    + intros [Hn _]%list_elem_of_filter. apply Hn. left.
    + intros Hn. rewrite filter_labels_absent.
      * by destruct k as [[n cols] out fs].
      * by intros c ->%list_elem_of_singleton.
  - exists (cleaned t). split; [by apply clean_cleaned|].
    split; [apply cleaned_no_Comments|]. split; [apply names_cleaned|].
    intros Hn. rewrite names_cleaned. apply filter_names_absent.
    by intros c ->%list_elem_of_singleton.
Qed.

Lemma export_run dest k :
  export dest k =
  (inr tt, mkKernel (df k) (stdout k ++ [Exported dest])
             (<[dest := to_csv (df k) false]> (files k))).
Proof. reflexivity. Qed.

(** C9. The cell writes one file: a header line with the names of the
    input's columns but [Comments], in their order, then one line per row
    of the input, in the order of the rows.  A line has one field per
    column and nothing else (no row label): the field of a key column is
    that of the cleaned column, the field of any other column is that of the
    input.  The columns that are neither key columns nor [Comments] are in
    the kernel's table as they were in the input. *)
Theorem export_schema (k : Kernel) (dest : string) :
  wf (df k) -> has_key_columns (df k) = true ->
  exists k' file,
    cleaning_cell dest k = (inr tt, k') /\
    files k' = <[dest := file]> (files k) /\
    file = to_csv (df k') false /\
    df k' = cleaned (df k) /\
    head file =
      Some (FText <$> filter (fun c => c ∉ ["Comments"]) (names (df k))) /\
    length (tail file) = nrows (df k) /\
    (forall i, i < nrows (df k) ->
       file !! S i =
       Some ((fun kv => if decide (kv.1 ∈ key_columns)
                        then cell_field (floor0 (impute kv.2)) i
                        else cell_field kv.2 i)
               <$> filter (fun kv => kv.1 ∉ ["Comments"]) (columns (df k)))) /\
    (forall c, c ∉ key_columns -> c <> "Comments" ->
       assoc c (columns (df k')) = assoc c (columns (df k))).
Proof.
  intros [Hnd Hlen] Hk.
  destruct (clean_steps_run k Hnd Hk) as [out Hrun].
  eexists _, _. split.
  { unfold cleaning_cell. rewrite cell_bind_run, Hrun, export_run.
    cbn [df stdout files]. reflexivity. }
  cbn [df files]. repeat split.
  - simpl. by rewrite names_cleaned.
  - simpl. by rewrite length_fmap, length_seq.
  - intros i Hi. simpl. rewrite list_lookup_fmap, lookup_seq_lt by done. simpl.
    f_equal. unfold on_keys. rewrite <- list_fmap_compose.
    apply list_fmap_ext. intros _ [c s] _. simpl. by case_decide.
  - intros c Hc Hne. by rewrite assoc_cleaned, decide_False.
Qed.

(** With [index=True] every line would start with one more field. *)
Example to_csv_index :
  to_csv (mkFrame 2 [("GHI", Float64 [Some 1; None]%Q)]) true
  = [[FText EmptyString; FText "GHI"]; [FNum 0; FNum 1]; [FNum 1; FEmpty]] /\
  to_csv (mkFrame 2 [("GHI", Float64 [Some 1; None]%Q)]) false
  = [[FText "GHI"]; [FNum 1]; [FEmpty]].
Proof. by vm_compute. Qed.

(** C10. On a table that has the key columns, one of them with every entry
    missing, [clean] returns: the median of that column is missing (there is
    no reading to take it of), filling with it changes nothing, and the
    column comes out with every entry missing, as it came in. *)
Theorem all_missing_column_stays_missing (t : DataFrame) (c : string)
    (l : list (option Q)) :
  NoDup (names t) -> has_key_columns t = true ->
  c ∈ key_columns -> readings t c = Some l -> dropna l = [] ->
  median (Float64 l) = inr None /\
  fillna l None = l /\
  exists t', clean t = inr t' /\
    readings t' c = Some l /\
    forall i, i < length l -> l !! i = Some None.
Proof.
  intros Hnd Hk Hc Hl Hnil. split; [simpl; by rewrite Hnil|]. split; [done|].
  exists (cleaned t). split; [by apply clean_cleaned|]. split.
  - rewrite (readings_cleaned _ _ _ Hc Hl), Hnil. cbn [median_of fillna].
    f_equal. unfold clip. rewrite <- (list_fmap_id l) at 2.
    apply list_fmap_ext. intros i o Hi.
    assert (Hlt : i < length l) by (by eapply lookup_lt_Some).
    apply (proj1 (dropna_nil l) Hnil) in Hlt. by simplify_eq.
  - by apply dropna_nil.
Qed.

(** ** Further properties of the cleaning cell *)

Lemma cleaned_has_key_columns t :
  has_key_columns t = true -> has_key_columns (cleaned t) = true.
Proof.
  rewrite !has_key_columns_spec. intros Hk c Hc.
  destruct (Hk c Hc) as [l Hl]. eexists. by apply readings_cleaned.
Qed.

Lemma cleaned_cleaned t : cleaned (cleaned t) = cleaned t.
Proof.
  transitivity (mkFrame (nrows (cleaned t)) (columns (cleaned t))); [|done].
  unfold cleaned at 1. f_equal.
  rewrite filter_labels_absent.
  2:{ intros c ->%list_elem_of_singleton. apply cleaned_no_Comments. }
  apply on_keys_fixed. intros c s Hc Hin.
  destruct (cleaned_column _ _ _ Hc Hin) as [s0 ->]. simpl.
  by rewrite impute_cleaned, floor0_idemp.
Qed.

Lemma on_keys_perm {A} ks ks' (f : A -> A) (cols : list (string * A)) :
  ks ≡ₚ ks' -> on_keys ks f cols = on_keys ks' f cols.
Proof.
  intros Hp. apply Forall_fmap_ext, Forall_forall. intros [k x] _. simpl.
  destruct (decide (k ∈ ks)) as [Hin|Hin].
  - rewrite decide_True; [done | by rewrite <- Hp].
  - rewrite decide_False; [done | by rewrite <- Hp].
Qed.

(** X1. The order in which the loop visits the key columns does not matter:
    visiting them in any other order leaves the kernel in the same state. *)
Theorem impute_loop_any_order (ks : list string) (k : Kernel) :
  ks ≡ₚ key_columns ->
  NoDup (names (df k)) -> has_key_columns (df k) = true ->
  for_each ks impute_column k = for_each key_columns impute_column k.
Proof.
  intros Hp Hnd Hk. rewrite has_key_columns_spec in Hk.
  rewrite !impute_loop_run; try done.
  - by rewrite (on_keys_perm _ _ _ _ Hp).
  - apply key_columns_NoDup.
  - rewrite Hp. apply key_columns_NoDup.
  - intros c Hc. apply Hk. by rewrite <- Hp.
Qed.

Lemma impute_loop_any_order_witness :
  for_each (reverse key_columns) impute_column (fresh outlier_sample)
  = for_each key_columns impute_column (fresh outlier_sample).
Proof.
  apply impute_loop_any_order.
  - apply reverse_Permutation.
  - by_computation.
  - reflexivity.
Defined.


Lemma report_run_rows mask k :
  has_key_columns (df k) = true ->
  report mask k =
  (inr tt, mkKernel (df k)
             (stdout k ++ [OutlierCount (length (mask_labels mask));
                           OutlierRows (mask_labels mask) (outlier_rows (df k) mask)])
             (files k)).
Proof.
  intros Hk. rewrite has_key_columns_spec in Hk.
  unfold report. rewrite cell_bind_run. cbn [read_df].
  rewrite cell_bind_run. cbn [print].
  rewrite cell_bind_run. unfold lift at 1. cbn [df stdout files].
  rewrite getitem_list_ok.
  2:{ intros c Hc. destruct (Hk c Hc) as [l Hl]. apply readings_Some in Hl.
      unfold getitem_mask. cbn [columns]. rewrite assoc_prod_map, Hl. by eexists. }
  unfold print. cbn [df stdout files]. rewrite <- app_assoc.
  unfold outlier_rows, getitem_mask. cbn [nrows columns].
  assert (E : omap (fun c => pair c <$>
                      assoc c (prod_map (fun c0 => c0) (Series_mask mask)
                                 <$> columns (df k))) key_columns
              = omap (fun c => pair c <$> (Series_mask mask <$> assoc c (columns (df k))))
                  key_columns).
  { apply list_omap_ext, Forall2_same_length_lookup. split; [done|].
    intros i c c' Hc Hc'. simplify_eq. by rewrite assoc_prod_map. }
  by rewrite E.
Qed.

Lemma clean_steps_run_stdout k :
  NoDup (names (df k)) -> has_key_columns (df k) = true ->
  clean_steps k =
  (inr tt,
   mkKernel (cleaned (df k))
     (stdout k ++
      [OutlierCount (length (mask_labels (flagged (df k) <$> seq 0 (nrows (df k)))));
       OutlierRows (mask_labels (flagged (df k) <$> seq 0 (nrows (df k))))
         (outlier_rows (df k) (flagged (df k) <$> seq 0 (nrows (df k))))])
     (files k)).
Proof.
  intros Hnd Hk. pose proof Hk as Hk'. rewrite has_key_columns_spec in Hk'.
  unfold clean_steps.
  rewrite cell_bind_run, cell_bind_run. cbn [read_df]. unfold lift at 1.
  rewrite (outliers_run _ Hk).
  rewrite cell_bind_run, (report_run_rows _ _ Hk).
  rewrite cell_bind_run, impute_loop_run;
    cbn [df stdout files]; [| apply key_columns_NoDup | done | done].
  rewrite cell_bind_run, drop_comments_run. cbn [df stdout files nrows columns].
  rewrite clip_negative_run; cbn [df stdout files nrows columns].
  - unfold cleaned. do 2 f_equal.
    rewrite on_keys_filter. by rewrite on_keys_compose.
  - unfold names. cbn [columns].
    rewrite on_keys_filter, on_keys_names, names_filter. by apply NoDup_filter.
  - apply has_key_columns_spec. intros c Hc.
    destruct (Hk' c Hc) as [l Hl]. apply readings_Some in Hl.
    exists (fillna l (median_of (dropna l))). apply readings_Some. cbn [columns].
    rewrite assoc_filter.
    + by rewrite assoc_on_keys, decide_True, Hl.
    + intros Hin. apply list_elem_of_singleton in Hin. subst c.
      by apply Comments_not_key.
Qed.

Lemma cleaning_cell_run dest k :
  NoDup (names (df k)) -> has_key_columns (df k) = true ->
  cleaning_cell dest k =
  (inr tt,
   mkKernel (cleaned (df k))
     (stdout k ++
      [OutlierCount (length (mask_labels (flagged (df k) <$> seq 0 (nrows (df k)))));
       OutlierRows (mask_labels (flagged (df k) <$> seq 0 (nrows (df k))))
         (outlier_rows (df k) (flagged (df k) <$> seq 0 (nrows (df k))));
       Exported dest])
     (<[dest := to_csv (cleaned (df k)) false]> (files k))).
Proof.
  intros Hnd Hk. unfold cleaning_cell.
  rewrite cell_bind_run, (clean_steps_run_stdout _ Hnd Hk), export_run.
  cbn [df stdout files]. by rewrite <- app_assoc.
Qed.

Lemma cleaning_cell_inr_inv dest k k' :
  cleaning_cell dest k = (inr tt, k') -> has_key_columns (df k) = true.
Proof.
  intros H. destruct (has_key_columns (df k)) eqn:E; [done|].
  apply has_key_columns_false in E as (c & Hc & Hr).
  destruct (clean_steps_raise k c Hc Hr) as [e He].
  unfold cleaning_cell in H. rewrite cell_bind_run, He in H. discriminate H.
Qed.

(** X2. Running the cell again on the kernel it has left succeeds and
    changes neither the table nor any file: the export is written again with
    the same content. *)
Theorem cleaning_cell_rerun (dest : string) (k k1 : Kernel) :
  NoDup (names (df k)) -> cleaning_cell dest k = (inr tt, k1) ->
  exists k2, cleaning_cell dest k1 = (inr tt, k2) /\
    df k2 = df k1 /\ files k2 = files k1.
Proof.
  intros Hnd H. pose proof (cleaning_cell_inr_inv _ _ _ H) as Hk.
  rewrite (cleaning_cell_run _ _ Hnd Hk) in H. injection H as <-.
  eexists. split.
  - apply cleaning_cell_run; cbn [df].
    + by apply cleaned_NoDup.
    + by apply cleaned_has_key_columns.
  - cbn [df files]. rewrite cleaned_cleaned. split; [done|].
    apply insert_insert_eq.
Qed.

Lemma assoc_omap_select {A} (g : string -> option A) ks c :
  assoc c (omap (fun c => pair c <$> g c) ks) = if decide (c ∈ ks) then g c else None.
Proof.
  induction ks as [|k r IH].
  - destruct (decide (c ∈ [])) as [Hin|]; [by apply elem_of_nil in Hin | done].
  - csimpl. destruct (g k) as [x|] eqn:Hg; csimpl.
    + destruct (decide (k = c)) as [->|Hne].
      * rewrite decide_True by left. done.
      * rewrite IH. destruct (decide (c ∈ r)) as [Hin|Hin].
        -- rewrite decide_True; [done | by right].
        -- rewrite decide_False; [done|].
           intros [->|Hin']%elem_of_cons; done.
    + rewrite IH. destruct (decide (c ∈ r)) as [Hin|Hin].
      * rewrite decide_True; [done | by right].
      * destruct (decide (c ∈ k :: r)) as [Hin'|]; [|done].
        apply elem_of_cons in Hin' as [->|Hin']; done.
Qed.

Lemma names_omap_select {A} (g : string -> option A) ks :
  (forall c, c ∈ ks -> is_Some (g c)) ->
  (omap (fun c => pair c <$> g c) ks).*1 = ks.
Proof.
  induction ks as [|k r IH]; intros H; [done|]. csimpl.
  destruct (H k) as [x ->]; [left|]. csimpl. f_equal.
  apply IH. intros c Hc. apply H. by right.
Qed.

Lemma outlier_rows_names t mask :
  has_key_columns t = true -> names (outlier_rows t mask) = key_columns.
Proof.
  rewrite has_key_columns_spec. intros Hk. unfold names, outlier_rows. cbn [columns].
  apply names_omap_select. intros c Hc. destruct (Hk c Hc) as [l Hl].
  apply readings_Some in Hl. rewrite Hl. by eexists.
Qed.

Lemma outlier_rows_readings t mask c l :
  c ∈ key_columns -> readings t c = Some l ->
  readings (outlier_rows t mask) c = Some (mask_filter mask l).
Proof.
  intros Hc Hl. apply readings_Some in Hl. apply readings_Some.
  unfold outlier_rows. cbn [columns].
  by rewrite assoc_omap_select, decide_True, Hl.
Qed.

Lemma mask_filter_lookup {A} (mask : list bool) : forall (l : list A) a j,
  length l = length mask ->
  mask_filter mask l !! j =
  mask_filter mask (seq a (length mask)) !! j ≫= fun i => l !! (i - a).
Proof.
  induction mask as [|b m IH]; intros l a j Hlen; [by destruct l|].
  destruct l as [|x r]; [done|]. cbn [length seq mask_filter].
  injection Hlen as Hlen.
  assert (Hstep : forall j',
            mask_filter m r !! j' =
            mask_filter m (seq (S a) (length m)) !! j' ≫= fun i => (x :: r) !! (i - a)).
  { intros j'. rewrite (IH r (S a) j' Hlen).
    destruct (mask_filter m (seq (S a) (length m)) !! j') as [i|] eqn:E; [|done].
    simpl. apply list_elem_of_lookup_2, mask_filter_seq in E as (i' & -> & _).
    replace (S a + i' - S a) with i' by lia.
    by replace (S a + i' - a) with (S i') by lia. }
  destruct b; [|apply Hstep].
  destruct j as [|j']; [|apply Hstep]. simpl. by rewrite Nat.sub_diag.
Qed.

Lemma mask_labels_lookup {A} (mask : list bool) (l : list A) j i :
  length l = length mask -> mask_labels mask !! j = Some i ->
  mask_filter mask l !! j = l !! i.
Proof.
  intros Hlen Hj. rewrite (mask_filter_lookup mask l 0 j Hlen).
  unfold mask_labels in Hj. rewrite Hj. simpl. by rewrite Nat.sub_0_r.
Qed.

Lemma mask_filter_sorted mask : forall a,
  StronglySorted lt (mask_filter mask (seq a (length mask))).
Proof.
  induction mask as [|b m IH]; intros a; cbn [length seq mask_filter].
  - constructor.
  - destruct b; [|apply IH]. constructor; [apply IH|].
    apply Forall_forall. intros j (i & -> & _)%mask_filter_seq. lia.
Qed.

Lemma mask_filter_length {A} (mask : list bool) : forall (l : list A),
  length (mask_filter mask l) <= length l.
Proof.
  induction mask as [|b m IH]; intros [|x r]; simpl; try lia.
  specialize (IH r). destruct b; simpl; lia.
Qed.

Lemma detect_outliers_inr_inv t labels :
  detect_outliers t = inr labels ->
  has_key_columns t = true /\
  labels = mask_labels (flagged t <$> seq 0 (nrows t)).
Proof.
  intros H. destruct (has_key_columns t) eqn:E.
  - split; [done|]. unfold detect_outliers in H.
    rewrite (outliers_run _ E) in H. by injection H as <-.
  - apply has_key_columns_false in E as (c & Hc & Hr).
    destruct (outliers_raise t c Hc Hr) as [e He].
    unfold detect_outliers in H. rewrite He in H. discriminate H.
Qed.

(** X3. The row labels [detect_outliers] returns are in strictly increasing
    order, so none is repeated, each is a row of the table, and there are at
    most as many as rows. *)
Theorem detect_outliers_sorted (t : DataFrame) (labels : list nat) :
  detect_outliers t = inr labels ->
  StronglySorted lt labels /\
  NoDup labels /\
  Forall (fun i => i < nrows t) labels /\
  length labels <= nrows t.
Proof.
  intros [Hk ->]%detect_outliers_inr_inv.
  set (mask := flagged t <$> seq 0 (nrows t)).
  assert (Hlen : length mask = nrows t)
    by (unfold mask; by rewrite length_fmap, length_seq).
  assert (Hs : StronglySorted lt (mask_labels mask)) by apply mask_filter_sorted.
  split; [done|]. split; [|split].
  - clear -Hs. induction Hs as [|i r _ IH Hall]; constructor; [|done].
    intros Hin. rewrite Forall_forall in Hall. specialize (Hall _ Hin). lia.
  - apply Forall_forall. intros i Hi%mask_labels_spec.
    apply lookup_lt_Some in Hi. lia.
  - unfold mask_labels. etrans; [apply mask_filter_length|].
    by rewrite length_seq, Hlen.
Qed.

(** X4. A run of the cell that succeeds prints exactly three things after
    what was printed before: the number of flagged rows, the flagged rows
    (one per label returned by [detect_outliers], under the key columns) and
    the export notice.  It writes the file [dest], holding the table it
    leaves in [df], and touches no other file. *)
Theorem cleaning_cell_outputs (dest : string) (k k' : Kernel) :
  NoDup (names (df k)) -> cleaning_cell dest k = (inr tt, k') ->
  exists labels rows,
    detect_outliers (df k) = inr labels /\
    stdout k' = stdout k ++ [OutlierCount (length labels);
                             OutlierRows labels rows; Exported dest] /\
    nrows rows = length labels /\
    names rows = key_columns /\
    files k' !! dest = Some (to_csv (df k') false) /\
    forall p, p <> dest -> files k' !! p = files k !! p.
Proof.
  intros Hnd H. pose proof (cleaning_cell_inr_inv _ _ _ H) as Hk.
  rewrite (cleaning_cell_run _ _ Hnd Hk) in H. injection H as <-.
  eexists _, _. split.
  { unfold detect_outliers. by rewrite (outliers_run _ Hk). }
  cbn [df stdout files]. split; [done|]. split; [done|].
  split; [by apply outlier_rows_names|]. split.
  - apply lookup_insert_eq.
  - intros p Hp. by apply lookup_insert_ne.
Qed.

(** X5. The flagged rows are printed as they are in the table before any
    cleaning: line [j] of the report holds, under each key column, the entry
    the input has in the row of the [j]-th label, missing or negative as it
    may be. *)
Theorem outlier_report_shows_input (dest : string) (k k' : Kernel) :
  wf (df k) -> cleaning_cell dest k = (inr tt, k') ->
  exists labels rows,
    detect_outliers (df k) = inr labels /\
    stdout k' = stdout k ++ [OutlierCount (length labels);
                             OutlierRows labels rows; Exported dest] /\
    forall c l j i, c ∈ key_columns -> readings (df k) c = Some l ->
      labels !! j = Some i ->
      exists lr, readings rows c = Some lr /\ lr !! j = l !! i.
Proof.
  intros Hwf H. pose proof Hwf as [Hnd _].
  pose proof (cleaning_cell_inr_inv _ _ _ H) as Hk.
  rewrite (cleaning_cell_run _ _ Hnd Hk) in H. injection H as <-.
  eexists _, _. split.
  { unfold detect_outliers. by rewrite (outliers_run _ Hk). }
  cbn [df stdout files]. split; [done|].
  intros c l j i Hc Hl Hj. eexists. split; [by apply outlier_rows_readings|].
  apply mask_labels_lookup; [|done].
  rewrite (readings_length _ _ _ Hwf Hl). by rewrite length_fmap, length_seq.
Qed.

(** ** Sums, means and deviations *)

Lemma Qlen_cons x l : (Qlen (x :: l) == Qlen l + 1)%Q.
Proof.
  unfold Qlen. cbn [length]. rewrite Nat2Z.inj_succ, <- Z.add_1_r.
  rewrite inject_Z_plus. reflexivity.
Qed.

Lemma Qlen_pos l : l <> [] -> (0 < Qlen l)%Q.
Proof. destruct l; [done|]. intros _. unfold Qlen, Qlt. simpl. lia. Qed.

Lemma Qsum_app l1 l2 : (Qsum (l1 ++ l2) == Qsum l1 + Qsum l2)%Q.
Proof.
  induction l1 as [|x r IH]; simpl; [lra|]. rewrite IH. lra.
Qed.

Lemma mean_spec l : l <> [] -> (mean l * Qlen l == Qsum l)%Q.
Proof.
  intros Hne. unfold mean. pose proof (Qlen_pos l Hne). field. lra.
Qed.

Lemma Qlen_map (f : Q -> Q) l : Qlen (map f l) = Qlen l.
Proof. unfold Qlen. by rewrite length_map. Qed.

Lemma variance_spec l :
  l <> [] ->
  (variance l * Qlen l == Qsum (map (fun x => (x - mean l) * (x - mean l)) l))%Q.
Proof.
  intros Hne. unfold variance.
  rewrite <- (Qlen_map (fun x => ((x - mean l) * (x - mean l))%Q) l).
  apply mean_spec. by destruct l.
Qed.

Lemma elem_of_dropna {A} (l : list (option A)) i x :
  l !! i = Some (Some x) -> x ∈ dropna l.
Proof.
  intros H. unfold dropna. apply list_elem_of_omap. exists (Some x).
  split; [by eapply list_elem_of_lookup_2 | done].
Qed.

Lemma Qsum_constant c xs :
  Forall (fun x => (x == c)%Q) xs -> (Qsum xs == Qlen xs * c)%Q.
Proof.
  induction 1 as [|x r Hx _ IH]; [change (0 == 0 * c)%Q; ring|].
  cbn [Qsum foldr]. fold (Qsum r). rewrite IH, Qlen_cons, Hx. ring.
Qed.

(** X7. A key column whose readings are all equal flags no row: its
    standard deviation is zero, every score is missing, and a missing score
    compares false. *)
Theorem constant_column_flags_nothing (l : list (option Q)) (c : Q) (i : nat) :
  Forall (fun x => (x == c)%Q) (dropna l) ->
  (variance (dropna l) == 0)%Q /\
  zscore_values l !! i = (fun _ => None) <$> l !! i /\
  nth i (flags l) false = false.
Proof.
  intros Hc.
  assert (Hv : (variance (dropna l) == 0)%Q).
  { destruct (dropna l) as [|y r] eqn:E; [reflexivity|].
    assert (Hne : y :: r <> []) by done.
    pose proof (mean_spec _ Hne) as Hm. pose proof (Qlen_pos _ Hne) as Hn.
    rewrite (Qsum_constant c) in Hm by done.
    assert (Hmc : (mean (y :: r) == c)%Q).
    { apply (Qmult_inj_r _ _ (Qlen (y :: r))); [lra|]. rewrite Hm. ring. }
    pose proof (variance_spec _ Hne) as Hvs.
    rewrite (Qsum_constant 0) in Hvs.
    - apply (Qmult_inj_r _ _ (Qlen (y :: r))); [lra|]. rewrite Hvs. ring.
    - apply Forall_fmap. eapply Forall_impl; [exact Hc|].
      intros x Hx. simpl. rewrite Hx, Hmc. ring. }
  split; [exact Hv|].
  assert (Hconst : isconst (dropna l) = true).
  { destruct (dropna l) as [|y r]; [done|]. cbn [isconst].
    apply Forall_cons in Hc as [Hy Hr]. rewrite Forall_forall in Hr.
    apply forallb_forall. intros x Hx. apply Qeq_bool_iff.
    rewrite Hy. symmetry. by apply Hr, list_elem_of_In. }
  split.
  - unfold zscore_values. rewrite Hconst. by rewrite list_lookup_fmap.
  - apply not_true_iff_false. intros (x & _ & Hn & _)%flags_spec. congruence.
Qed.

(** ** The median *)

Lemma sorted_lookup_le (s : list Q) : StronglySorted Qle s ->
  forall i j a b, s !! i = Some a -> s !! j = Some b -> i <= j -> (a <= b)%Q.
Proof.
  induction 1 as [|x r Hs IH Hall]; intros i j a b Hi Hj Hij; [done|].
  destruct i as [|i], j as [|j]; simplify_eq/=.
  - apply Qle_refl.
  - rewrite Forall_forall in Hall. by eapply Hall, list_elem_of_lookup_2.
  - lia.
  - eapply IH; eauto. lia.
Qed.

Lemma filter_none {A} (P : A -> Prop) `{!forall x, Decision (P x)} (l : list A) :
  (forall i x, l !! i = Some x -> ~ P x) -> filter P l = [].
Proof.
  intros Hn. induction l as [|x r IH]; [done|].
  rewrite filter_cons, decide_False by (by apply (Hn 0)).
  apply IH. intros i y Hy. by apply (Hn (S i)).
Qed.

Lemma median_of_inv xs m :
  median_of xs = Some m ->
  xs <> [] /\
  exists p q,
    sort_values xs !! (length xs - length xs / 2 - 1) = Some p /\
    sort_values xs !! (length xs / 2) = Some q /\
    (p <= m <= q)%Q /\ ((m == p)%Q \/ (m == q)%Q \/ (p < m < q)%Q).
Proof.
  unfold median_of. rewrite sort_values_length. cbv zeta. intros H.
  set (s := sort_values xs) in *. set (h := length xs / 2) in *.
  assert (Hne : xs <> []) by (intros ->; discriminate H).
  assert (Hlen : length xs > 0) by (destruct xs; [done | simpl; lia]).
  split; [done|].
  replace (length xs =? 0) with false in H by (symmetry; apply Nat.eqb_neq; lia).
  pose proof (sort_values_length xs) as Hsl. fold s in Hsl, H.
  assert (Hss : StronglySorted Qle s).
  { apply (@Sorted_StronglySorted _ Qle Qle_trans), sort_values_Sorted. }
  destruct (Nat.even (length xs)) eqn:Ev.
  - apply Nat.even_spec in Ev as [k Hk].
    assert (Hh : h = k) by (unfold h; rewrite Hk; by rewrite Nat.mul_comm, Nat.div_mul).
    destruct (lookup_lt_is_Some_2 s (h - 1)) as [p Hp]; [lia|].
    destruct (lookup_lt_is_Some_2 s h) as [q Hq]; [lia|].
    rewrite !nth_lookup, Hp, Hq in H. simpl in H. injection H as <-. exists p, q.
    replace (length xs - h - 1) with (h - 1) by lia.
    pose proof (sorted_lookup_le s Hss _ _ _ _ Hp Hq ltac:(lia)) as Hpq.
    split; [done|]. split; [done|].
    assert (Hm : ((p + q) / 2 == (p + q) * (1 # 2))%Q) by (field).
    rewrite Hm. split; [split; lra|].
    destruct (Qlt_le_dec p q); [right; right; split; lra | left; lra].
  - assert (Hodd : length xs = 2 * h + 1).
    { pose proof (Nat.div_mod_eq (length xs) 2) as Hd. fold h in Hd.
      assert (length xs mod 2 = 1); [|lia].
      rewrite <- Nat.negb_odd in Ev. apply negb_false_iff, Nat.odd_spec in Ev.
      destruct Ev as [k' Hk']. rewrite Hk', Nat.add_comm, Nat.mul_comm.
      by rewrite Nat.Div0.mod_add. }
    destruct (lookup_lt_is_Some_2 s h) as [q Hq]; [lia|].
    rewrite nth_lookup, Hq in H. simpl in H. injection H as <-.
    exists q, q. replace (length xs - h - 1) with h by lia.
    repeat split; try done; try apply Qle_refl. by left.
Qed.

(** X8. The median the loop fills a column with is a middle value of the
    column's readings: it lies between two of them, at most half of them are
    below it and at most half of them are above it. *)
Theorem median_is_middle (l : list (option Q)) (m : Q) :
  median (Float64 l) = inr (Some m) ->
  (exists a b, a ∈ dropna l /\ b ∈ dropna l /\ (a <= m <= b)%Q) /\
  2 * length (filter (fun x => Qltb x m = true) (dropna l)) <= length (dropna l) /\
  2 * length (filter (fun x => Qltb m x = true) (dropna l)) <= length (dropna l).
Proof.
  intros [= H]. set (xs := dropna l) in *.
  apply median_of_inv in H as (Hne & p & q & Hp & Hq & [Hpm Hmq] & _).
  pose proof (sort_values_Permutation xs) as Hperm.
  pose proof (sort_values_length xs) as Hlen.
  assert (Hss : StronglySorted Qle (sort_values xs)).
  { apply (@Sorted_StronglySorted _ Qle Qle_trans), sort_values_Sorted. }
  set (s := sort_values xs) in *. set (h := length xs / 2) in *.
  assert (Hh : 2 * h <= length xs).
  { unfold h. pose proof (Nat.div_mod_eq (length xs) 2). lia. }
  split; [|split].
  - exists p, q. rewrite <- !Hperm.
    split; [by eapply list_elem_of_lookup_2|].
    split; [by eapply list_elem_of_lookup_2 | done].
  - assert (Hcount : length (filter (fun x => Qltb x m = true) xs)
                     = length (filter (fun x => Qltb x m = true) s))
      by (by rewrite Hperm).
    assert (E : filter (fun x => Qltb x m = true) s
                = filter (fun x => Qltb x m = true) (take h s)
                  ++ filter (fun x => Qltb x m = true) (skipn h s))
      by (by rewrite <- filter_app, take_drop).
    rewrite Hcount, E, length_app, (filter_none _ (skipn h s)).
    + pose proof (length_filter (fun x => Qltb x m = true) (take h s)) as Hf.
      rewrite length_take in Hf. simpl. lia.
    + intros j y Hy Hlt. rewrite lookup_drop in Hy. apply Qltb_lt in Hlt.
      pose proof (sorted_lookup_le s Hss _ _ _ _ Hq Hy ltac:(lia)). lra.
  - assert (Hcount : length (filter (fun x => Qltb m x = true) xs)
                     = length (filter (fun x => Qltb m x = true) s))
      by (by rewrite Hperm).
    assert (E : filter (fun x => Qltb m x = true) s
                = filter (fun x => Qltb m x = true) (take (length xs - h) s)
                  ++ filter (fun x => Qltb m x = true) (skipn (length xs - h) s))
      by (by rewrite <- filter_app, take_drop).
    rewrite Hcount, E, length_app, (filter_none _ (take (length xs - h) s)).
    + pose proof (length_filter (fun x => Qltb m x = true)
                    (skipn (length xs - h) s)) as Hf.
      rewrite length_drop in Hf. simpl. lia.
    + intros j y Hy Hlt. apply lookup_take_Some in Hy as [Hy Hj].
      apply Qltb_lt in Hlt.
      pose proof (sorted_lookup_le s Hss _ _ _ _ Hy Hp ltac:(lia)). lra.
Qed.

Lemma median_is_middle_witness :
  2 * length (filter (fun x => Qltb x 2 = true)
                (dropna [Some 1; Some 2; None; Some 100]%Q)) <= 3.
Proof.
  refine (proj1 (proj2 (median_is_middle [Some 1; Some 2; None; Some 100]%Q 2%Q _))).
  reflexivity.
Defined.

Lemma median_lower_bound (l : list (option Q)) m :
  median_of (dropna l) = Some m -> exists a, a ∈ dropna l /\ (a <= m)%Q.
Proof.
  intros (_ & p & q & Hp & _ & [Hpm _] & _)%median_of_inv.
  exists p. split; [|done].
  rewrite <- (sort_values_Permutation (dropna l)).
  by eapply list_elem_of_lookup_2.
Qed.

Lemma clip_nonneg_id (l : list (option Q)) :
  (forall i x, l !! i = Some (Some x) -> (0 <= x)%Q) -> clip 0 l = l.
Proof.
  intros H. unfold clip. rewrite <- (list_fmap_id l) at 2.
  apply list_fmap_ext. intros i [x|] Hi; [|done]. simpl.
  by rewrite clip_value_above by eauto.
Qed.

(** X9. A key column whose readings are all at least zero comes out of
    [clean] with its readings as they were and its missing entries holding
    the median itself: the clipping has nothing to change in it. *)
Theorem nonnegative_column_is_only_filled (t t' : DataFrame) (c : string)
    (l : list (option Q)) :
  NoDup (names t) -> clean t = inr t' -> c ∈ key_columns ->
  readings t c = Some l -> Forall (fun x => (0 <= x)%Q) (dropna l) ->
  readings t' c = Some (fillna l (median_of (dropna l))) /\
  (forall i x, l !! i = Some (Some x) ->
     fillna l (median_of (dropna l)) !! i = Some (Some x)) /\
  (forall i, l !! i = Some None ->
     fillna l (median_of (dropna l)) !! i = Some (median_of (dropna l))).
Proof.
  intros Hnd [_ ->]%clean_inv Hc Hl Hpos; [|done]. rewrite Forall_forall in Hpos.
  split; [|split].
  - rewrite (readings_cleaned _ _ _ Hc Hl). f_equal. apply clip_nonneg_id.
    intros i x Hx. destruct (median_of (dropna l)) as [m|] eqn:Hm.
    + assert (Hm0 : (0 <= m)%Q).
      { destruct (median_lower_bound l m Hm) as (a & Ha & Ham).
        specialize (Hpos a Ha). lra. }
      rewrite fillna_lookup in Hx. destruct (l !! i) as [[y|]|] eqn:Hi; simplify_eq/=.
      * eapply Hpos, elem_of_dropna, Hi.
      * done.
    + cbn [fillna] in Hx. eapply Hpos, elem_of_dropna, Hx.
  - intros i x Hi. destruct (median_of (dropna l)) as [m|]; [|done].
    by rewrite fillna_lookup, Hi.
  - intros i Hi. destruct (median_of (dropna l)) as [m|]; [|done].
    by rewrite fillna_lookup, Hi.
Qed.

Lemma to_csv_row (d : DataFrame) i :
  i < nrows d ->
  to_csv d false !! S i = Some ((fun kv : string * Series => cell_field kv.2 i) <$> columns d).
Proof.
  intros Hi. unfold to_csv.
  change ((?h :: ?r) !! S i) with (r !! i).
  by rewrite list_lookup_fmap, lookup_seq_lt.
Qed.

(** X10. When every key column of the input holds a reading, no field of a
    key column is empty in the exported file: each is a number, and that
    number is at least zero. *)
Theorem export_key_fields (dest : string) (k k' : Kernel) :
  wf (df k) -> observed (df k) = true ->
  cleaning_cell dest k = (inr tt, k') ->
  exists file, files k' !! dest = Some file /\
    forall i j c, i < nrows (df k) -> names (df k') !! j = Some c ->
      c ∈ key_columns ->
      exists row q, file !! S i = Some row /\ row !! j = Some (FNum q) /\
                    (0 <= q)%Q.
Proof.
  intros Hwf Hobs H. pose proof Hwf as [Hnd _].
  pose proof (observed_has_key_columns _ Hobs) as Hk.
  rewrite (cleaning_cell_run _ _ Hnd Hk) in H. injection H as <-.
  cbn [df files]. eexists. split; [apply lookup_insert_eq|].
  intros i j c Hi Hj Hc. rewrite observed_spec in Hobs.
  destruct (Hobs c Hc) as (l & Hl & Hne).
  destruct (median_of_is_Some _ Hne) as [m Hm].
  pose proof (readings_cleaned _ _ _ Hc Hl) as Hl'. rewrite Hm in Hl'.
  unfold names in Hj. rewrite list_lookup_fmap in Hj.
  destruct (columns (cleaned (df k)) !! j) as [[c' s]|] eqn:Hcol;
    [|discriminate Hj]. injection Hj as ->.
  assert (Hs : s = Float64 (clip 0 (fillna l (Some m)))).
  { pose proof Hcol as Hin.
    apply list_elem_of_lookup_2, (assoc_NoDup _ _ _ (cleaned_NoDup _ Hnd)) in Hin.
    apply readings_Some in Hl'. rewrite Hin in Hl'. by injection Hl'. }
  rewrite <- (readings_length _ _ _ Hwf Hl) in Hi.
  apply lookup_lt_is_Some_2 in Hi as [o Ho].
  exists ((fun kv : string * Series => cell_field kv.2 i) <$> columns (cleaned (df k))),
         (clip_value 0 (default m o)).
  split; [|split].
  - apply to_csv_row. cbn [cleaned nrows].
    apply lookup_lt_Some in Ho. by rewrite <- (readings_length _ _ _ Hwf Hl).
  - rewrite list_lookup_fmap, Hcol. subst s.
    change (Some (cell_field (Float64 (clip 0 (fillna l (Some m)))) i)
            = Some (FNum (clip_value 0 (default m o)))).
    unfold cell_field. by rewrite clip_lookup, fillna_lookup, Ho.
  - apply clip_value_nonneg.
Qed.

(** ** The report of missing values *)

Lemma isna_sum_dropna {A} (l : list (option A)) :
  isna_sum l + length (dropna l) = length l.
Proof.
  unfold dropna. induction l as [|[x|] r IH]; csimpl; lia.
Qed.

Lemma isna_sum_filled {A} (l : list (option A)) :
  Forall is_Some l -> isna_sum l = 0.
Proof. induction 1 as [|o r [x ->] _ IH]; [done|]. by simpl. Qed.

Lemma missing_report_fmap d :
  missing_report d =
  (fun kv : string * Series =>
     (kv.1, (Series_isna_sum kv.2,
             percentage_of (nrows d) (Series_isna_sum kv.2)))) <$> columns d.
Proof.
  unfold missing_report, missing_percentage, missing_values.
  induction (columns d) as [|[c s] r IH]; [done|]. csimpl. by rewrite IH.
Qed.

Lemma over_5_percentage len count :
  count <= len ->
  over_5 (percentage_of len count) = true <-> len < 20 * count.
Proof.
  intros Hle. unfold percentage_of, over_5.
  destruct (len =? 0)%nat eqn:E.
  - apply Nat.eqb_eq in E. split; [done | lia].
  - apply Nat.eqb_neq in E. rewrite Qltb_lt.
    assert (Hlen : (0 < inject_Z (Z.of_nat len))%Q).
    { unfold Qlt. simpl. lia. }
    set (n := inject_Z (Z.of_nat len)) in *.
    set (c := inject_Z (Z.of_nat count)) in *.
    assert (Hiff : (n < 20 * c)%Q <-> len < 20 * count).
    { unfold n, c, Qlt. simpl. lia. }
    rewrite <- Hiff.
    assert (Hq : (c / n * 100 == (100 * c) / n)%Q) by (field; lra).
    rewrite Hq. clearbody n c. split; intros H.
    + apply (Qmult_lt_r _ _ n Hlen) in H.
      assert (E' : (100 * c / n * n == 100 * c)%Q) by (field; lra).
      rewrite E' in H. lra.
    + apply (Qmult_lt_r _ _ n Hlen).
      assert (E' : (100 * c / n * n == 100 * c)%Q) by (field; lra).
      rewrite E'. lra.
Qed.

Lemma Series_isna_sum_le s : Series_isna_sum s <= series_len s.
Proof.
  destruct s as [l|l]; simpl; pose proof (isna_sum_dropna l); lia.
Qed.

Lemma missing_report_names d : (missing_report d).*1 = names d.
Proof.
  rewrite missing_report_fmap. unfold names. rewrite <- list_fmap_compose.
  by apply list_fmap_ext.
Qed.

(** X11. The report has one row per column of the table, in the order of
    the columns.  A count never exceeds the row count; the percentage is a
    NaN on a table without rows and otherwise the count as a share of the
    rows, between 0 and 100. *)
Theorem missing_report_bounds (t : DataFrame) :
  wf t ->
  (missing_report t).*1 = names t /\
  forall c n p, (c, (n, p)) ∈ missing_report t ->
    n <= nrows t /\
    match p with
    | None => nrows t = 0
    | Some q =>
        0 < nrows t /\ (0 <= q <= 100)%Q /\
        (q * inject_Z (Z.of_nat (nrows t)) == 100 * inject_Z (Z.of_nat n))%Q
    end.
Proof.
  intros [_ Hlen]. split; [apply missing_report_names|].
  rewrite missing_report_fmap. intros c n p Hin. apply list_elem_of_fmap in Hin as ([c' s] & [= -> -> ->] & Hin).
  rewrite Forall_forall in Hlen. specialize (Hlen _ Hin). simpl in *.
  pose proof (Series_isna_sum_le s) as Hle. rewrite Hlen in Hle.
  split; [done|]. unfold percentage_of.
  destruct (nrows t =? 0)%nat eqn:E.
  - by apply Nat.eqb_eq in E.
  - apply Nat.eqb_neq in E. split; [lia|].
    assert (Hn : (0 < inject_Z (Z.of_nat (nrows t)))%Q) by (unfold Qlt; simpl; lia).
    assert (H0 : (0 <= inject_Z (Z.of_nat (Series_isna_sum s)))%Q)
      by (unfold Qle; simpl; lia).
    assert (H1 : (inject_Z (Z.of_nat (Series_isna_sum s))
                  <= inject_Z (Z.of_nat (nrows t)))%Q)
      by (unfold Qle; simpl; lia).
    set (n := inject_Z (Z.of_nat (nrows t))) in *.
    set (k := inject_Z (Z.of_nat (Series_isna_sum s))) in *. clearbody n k.
    assert (Hq : (k / n * 100 * n == 100 * k)%Q) by (field; lra).
    split; [|exact Hq]. split.
    + apply (Qmult_le_r _ _ n Hn). rewrite Hq. lra.
    + apply (Qmult_le_r _ _ n Hn). rewrite Hq. lra.
Qed.

Lemma missing_report_bounds_witness :
  (missing_report sample).*1 = names sample.
Proof.
  refine (proj1 (missing_report_bounds sample _)). by_computation.
Defined.

Lemma missing_report_over_5_closed (t : DataFrame) :
  wf t ->
  missing_report_over_5 t
  = filter (fun row => nrows t < 20 * row.2.1) (missing_report t).
Proof.
  intros [_ Hlen].
  unfold missing_report_over_5. rewrite missing_report_fmap.
  induction Hlen as [|[c s] r Hs _ IH]; [done|].
  rewrite fmap_cons, !filter_cons. simpl in *.
  pose proof (Series_isna_sum_le s) as Hle. rewrite Hs in Hle.
  pose proof (over_5_percentage _ _ Hle) as Hiff.
  destruct (decide (over_5 _ = true)) as [Ho|Ho];
    destruct (decide (nrows t < _)) as [Hn|Hn]; try by rewrite IH.
  - exfalso. by apply Hn, Hiff.
  - exfalso. by apply Ho, Hiff.
Qed.

(** X12. The report printed lists exactly the columns in which more than
    one entry in twenty is missing, in the order of the columns; on a table
    without rows it lists nothing. *)
Theorem missing_report_over_5_spec (t : DataFrame) :
  wf t ->
  missing_report_over_5 t
  = filter (fun row => nrows t < 20 * row.2.1) (missing_report t) /\
  (nrows t = 0 -> missing_report_over_5 t = []).
Proof.
  intros Hwf. pose proof (missing_report_over_5_closed t Hwf) as E.
  destruct Hwf as [_ Hlen].
  split; [exact E|]. intros H0. rewrite E.
  apply filter_none. intros i [c [n p]] Hi Hlt. simpl in Hlt.
  rewrite missing_report_fmap, list_lookup_fmap in Hi.
  destruct (columns t !! i) as [[c' s]|] eqn:Hc; simplify_eq/=.
  rewrite Forall_forall in Hlen.
  pose proof (Hlen _ (list_elem_of_lookup_2 _ _ _ Hc)) as Hs. simpl in Hs.
  pose proof (Series_isna_sum_le s). lia.
Qed.

Lemma missing_report_over_5_spec_witness :
  (missing_report_over_5 sample).*1 = ["GHI"; "DNI"; "DHI"; "WS"; "Comments"].
Proof.
  rewrite (proj1 (missing_report_over_5_spec sample ltac:(by_computation))).
  by vm_compute.
Defined.

Lemma assoc_missing_values d c :
  assoc c (missing_values d) = Series_isna_sum <$> assoc c (columns d).
Proof. apply assoc_prod_map. Qed.

Lemma dropna_fillna_Some l m : isna_sum (clip 0 (fillna l (Some m))) = 0.
Proof. apply isna_sum_filled, clip_filled, fillna_Some_filled. Qed.

(** X13. Profiling again after the cleaning: a key column that had a
    reading has no missing entry left and cannot be in the printed report;
    a key column without any reading still has every entry missing; the
    columns that are neither key columns nor [Comments] have the counts they
    had; [Comments] is no longer a row of the report. *)
Theorem missing_values_after_clean (t t' : DataFrame) :
  wf t -> clean t = inr t' ->
  (forall c l, c ∈ key_columns -> readings t c = Some l ->
     assoc c (missing_values t')
     = Some (if decide (dropna l = []) then length l else 0)) /\
  (forall c l n p, c ∈ key_columns -> readings t c = Some l -> dropna l <> [] ->
     (c, (n, p)) ∉ missing_report_over_5 t') /\
  (forall c, c ∉ key_columns -> c <> "Comments" ->
     assoc c (missing_values t') = assoc c (missing_values t)) /\
  "Comments" ∉ (missing_report t').*1.
Proof.
  intros Hwf Hclean. pose proof Hwf as [Hnd _].
  apply clean_inv in Hclean as [Hk ->]; [|done].
  assert (Hkey : forall c l, c ∈ key_columns -> readings t c = Some l ->
            assoc c (missing_values (cleaned t))
            = Some (if decide (dropna l = []) then length l else 0)).
  { intros c l Hc Hl. rewrite assoc_missing_values.
    pose proof (readings_cleaned _ _ _ Hc Hl) as Hl'. apply readings_Some in Hl'.
    rewrite Hl'.
    change (Some (isna_sum (clip 0 (fillna l (median_of (dropna l)))))
            = Some (if decide (dropna l = []) then length l else 0)).
    f_equal. destruct (decide (dropna l = [])) as [Hnil|Hne].
    - rewrite Hnil, median_of_nil. cbn [fillna].
      pose proof (isna_sum_dropna (clip 0 l)) as Hs.
      rewrite dropna_clip, Hnil, clip_length in Hs. cbn [fmap list_fmap length] in Hs.
      lia.
    - destruct (median_of_is_Some _ Hne) as [m ->]. apply dropna_fillna_Some. }
  split; [exact Hkey|]. split; [|split].
  - intros c l n p Hc Hl Hne Hin.
    pose proof (cleaned_wf _ Hwf) as Hwf'.
    rewrite (missing_report_over_5_closed _ Hwf') in Hin.
    apply list_elem_of_filter in Hin as [Hlt Hin]. simpl in Hlt.
    rewrite missing_report_fmap in Hin.
    apply list_elem_of_fmap in Hin as ([c' s] & [= -> -> ->] & Hin). simpl in *.
    apply (assoc_NoDup _ _ _ (cleaned_NoDup _ Hnd)) in Hin.
    specialize (Hkey _ _ Hc Hl). rewrite assoc_missing_values, Hin in Hkey.
    rewrite decide_False in Hkey by done. simpl in Hkey. injection Hkey as Hs.
    lia.
  - intros c Hc Hne. by rewrite !assoc_missing_values, assoc_cleaned, decide_False.
  - rewrite missing_report_names. apply cleaned_no_Comments.
Qed.

(** ** Group keys and group means *)

Lemma insert_key_elem {K} (eqb leb : K -> K -> bool) x l y :
  y ∈ insert_key eqb leb x l -> y = x \/ y ∈ l.
Proof.
  induction l as [|z r IH]; simpl.
  - intros ->%list_elem_of_singleton. by left.
  - destruct (eqb x z); [by right|]. destruct (leb x z).
    + intros [->|Hin]%elem_of_cons; [by left | by right].
    + intros [->|Hin]%elem_of_cons; [right; left|].
      destruct (IH Hin) as [->|Hr]; [by left | right; by right].
Qed.

Lemma insert_key_keeps {K} (eqb leb : K -> K -> bool) x l y :
  y ∈ l -> y ∈ insert_key eqb leb x l.
Proof.
  induction l as [|z r IH]; simpl; [by intros ?%elem_of_nil|].
  destruct (eqb x z); [done|]. destruct (leb x z); [by right|].
  intros [->|Hin]%elem_of_cons; [left | right; auto].
Qed.

Lemma insert_key_covers x l :
  exists g, g ∈ insert_key Qeq_bool Qle_bool x l /\ (x == g)%Q.
Proof.
  induction l as [|z r IH]; simpl.
  - exists x. split; [left | reflexivity].
  - destruct (Qeq_bool x z) eqn:E.
    + exists z. split; [left | by apply Qeq_bool_iff].
    + destruct (Qle_bool x z).
      * exists x. split; [left | reflexivity].
      * destruct IH as (g & Hg & Hx). exists g. split; [by right | done].
Qed.

Lemma insert_key_sorted x l :
  StronglySorted Qlt l -> StronglySorted Qlt (insert_key Qeq_bool Qle_bool x l).
Proof.
  induction 1 as [|z r Hs IH Hall]; simpl.
  - repeat constructor.
  - destruct (Qeq_bool x z) eqn:E; [by constructor|].
    assert (Hne : ~ (x == z)%Q) by (intros H%Qeq_bool_iff; congruence).
    destruct (Qle_bool x z) eqn:L.
    + apply Qle_bool_iff in L.
      assert (Hlt : (x < z)%Q).
      { destruct (Qlt_le_dec x z) as [|Hge]; [done|].
        exfalso. apply Hne. by apply Qle_antisym. }
      constructor; [by constructor|]. constructor; [done|].
      eapply Forall_impl; [exact Hall|]. intros y Hy. simpl in *.
      eapply Qlt_trans; eauto.
    + assert (Hlt : (z < x)%Q).
      { apply Qnot_le_lt. intros H%Qle_bool_iff. congruence. }
      constructor; [done|]. apply Forall_forall. intros y Hy.
      apply insert_key_elem in Hy as [->|Hy]; [done|].
      rewrite Forall_forall in Hall. by apply Hall.
Qed.

Lemma group_keys_sorted ks :
  StronglySorted Qlt (group_keys Qeq_bool Qle_bool ks).
Proof.
  unfold group_keys. induction (dropna ks) as [|x r IH]; simpl.
  - constructor.
  - by apply insert_key_sorted.
Qed.

Lemma group_keys_sub {K} (eqb leb : K -> K -> bool) ks g :
  g ∈ group_keys eqb leb ks -> g ∈ dropna ks.
Proof.
  unfold group_keys. induction (dropna ks) as [|x r IH]; simpl.
  - by intros ?%elem_of_nil.
  - intros [->|Hin]%insert_key_elem; [left | right; auto].
Qed.

Lemma group_keys_cover ks x :
  x ∈ dropna ks -> exists g, g ∈ group_keys Qeq_bool Qle_bool ks /\ (x == g)%Q.
Proof.
  unfold group_keys. induction (dropna ks) as [|y r IH]; simpl.
  - by intros ?%elem_of_nil.
  - intros [->|Hin]%elem_of_cons; [apply insert_key_covers|].
    destruct (IH Hin) as (g & Hg & Hx). exists g.
    split; [by apply insert_key_keeps | done].
Qed.

Lemma getitem_list_inr_names {A} (d : Frame A) ks sel :
  getitem_list d ks = inr sel ->
  names sel = ks /\ nrows sel = nrows d /\
  forall c, c ∈ ks -> assoc c (columns sel) = assoc c (columns d).
Proof.
  intros H. pose proof (getitem_list_inr _ _ _ H) as ->.
  unfold getitem_list in H.
  destruct (filter _ ks) as [|m ms] eqn:E; [|done].
  assert (Hall : forall c, c ∈ ks -> is_Some (assoc c (columns d))).
  { intros c Hc. destruct (assoc c (columns d)) eqn:Ha; [by eexists|].
    exfalso. by apply (filter_nil_not_elem_of _ _ c E). }
  split; [by apply names_omap_select|]. split; [done|].
  intros c Hc. cbn [columns]. by rewrite assoc_omap_select, decide_True.
Qed.

Lemma apply_columns_inr {A B} (f : A -> result B) cols cols' :
  apply_columns f cols = inr cols' ->
  cols'.*1 = cols.*1 /\
  forall c s, assoc c cols = Some s ->
    exists s', f s = inr s' /\ assoc c cols' = Some s'.
Proof.
  revert cols'. induction cols as [|[k x] r IH]; intros cols' H.
  - injection H as <-. split; [done|]. by intros c s.
  - csimpl in H. destruct (f x) as [e|y] eqn:Hf; [done|]. csimpl in H.
    destruct (apply_columns f r) as [e|ys] eqn:Hr; [done|]. csimpl in H.
    injection H as <-. destruct (IH ys eq_refl) as [Hn Ha].
    split; [csimpl; by rewrite Hn|].
    intros c s. simpl. destruct (decide (k = c)); [|by apply Ha].
    intros [= <-]. by exists y.
Qed.

Lemma cleaning_impact_inv t r ks :
  cleaning_impact t = inr r -> readings t "Cleaning" = Some ks ->
  names r = ["Cleaning"; "ModA"; "ModB"] /\
  nrows r = length (group_keys Qeq_bool Qle_bool ks) /\
  readings r "Cleaning" = Some (Some <$> group_keys Qeq_bool Qle_bool ks) /\
  forall c, c ∈ ["ModA"; "ModB"] ->
    exists vs, readings t c = Some vs /\
      readings r c = Some (group_means Qeq_bool Qle_bool ks vs).
Proof.
  intros H Hks. apply readings_Some in Hks.
  unfold cleaning_impact, groupby_mean, getitem in H. rewrite Hks in H.
  csimpl in H.
  destruct (getitem_list t ["ModA"; "ModB"]) as [e|sel] eqn:Hsel; [done|].
  csimpl in H. unfold apply in H.
  destruct (apply_columns _ (columns sel)) as [e|means] eqn:Hm; [done|].
  csimpl in H. injection H as <-.
  apply getitem_list_inr_names in Hsel as (Hn & _ & Hsel).
  apply apply_columns_inr in Hm as [Hmn Hm].
  split; [unfold names in *; csimpl; by rewrite Hmn, Hn|].
  split; [by rewrite length_fmap|]. split; [done|].
  intros c Hc. specialize (Hsel c Hc).
  assert (Hin : c ∈ names sel) by (by rewrite Hn).
  destruct (assoc c (columns sel)) as [s|] eqn:Hs;
    [|by apply assoc_None in Hs].
  destruct (Hm c s Hs) as (s' & Hf & Hs').
  destruct s as [vs|vs]; [|done]. injection Hf as <-.
  exists vs. split; [apply readings_Some; congruence|].
  apply readings_Some. cbn [columns assoc].
  rewrite decide_False; [done|].
  intros <-. apply elem_of_cons in Hc as [?|Hc]; [done|].
  by apply list_elem_of_singleton in Hc.
Qed.

(** X14. The cleaning-impact table has one row per distinct value of the
    [Cleaning] flag that is present in the table: its [Cleaning] column lists
    these values in strictly increasing order, each once, and its other
    columns are [ModA] and [ModB]. *)
Theorem cleaning_impact_keys (t r : DataFrame) (ks : list (option Q)) :
  readings t "Cleaning" = Some ks -> cleaning_impact t = inr r ->
  names r = ["Cleaning"; "ModA"; "ModB"] /\
  exists gs, readings r "Cleaning" = Some (Some <$> gs) /\
    nrows r = length gs /\
    StronglySorted Qlt gs /\
    (forall g, g ∈ gs -> exists i, ks !! i = Some (Some g)) /\
    (forall i x, ks !! i = Some (Some x) -> exists g, g ∈ gs /\ (x == g)%Q).
Proof.
  intros Hks H. destruct (cleaning_impact_inv _ _ _ H Hks) as (Hn & Hr & Hc & _).
  split; [done|]. exists (group_keys Qeq_bool Qle_bool ks).
  split; [done|]. split; [done|]. split; [apply group_keys_sorted|]. split.
  - intros g Hg%group_keys_sub. unfold dropna in Hg.
    apply list_elem_of_omap in Hg as ([y|] & Hy & [= ->]).
    by apply list_elem_of_lookup_1 in Hy.
  - intros i x Hx. by eapply group_keys_cover, elem_of_dropna.
Qed.

Lemma cleaning_impact_keys_witness :
  names (mkFrame 2 [("Cleaning", Float64 [Some 0%Q; Some 1%Q]);
                    ("ModA", Float64 [Some (24 # 12)%Q; Some 2%Q]);
                    ("ModB", Float64 [Some (3 # 3)%Q; Some 1%Q])])
  = ["Cleaning"; "ModA"; "ModB"].
Proof.
  refine (proj1 (cleaning_impact_keys sample _ [Some 0; Some 0; Some 1; Some 0]%Q _ _)).
  - reflexivity.
  - by vm_compute.
Defined.

Lemma elem_of_mask_filter {A} (mask : list bool) : forall (l : list A) x,
  x ∈ mask_filter mask l <-> exists i, mask !! i = Some true /\ l !! i = Some x.
Proof.
  induction mask as [|b m IH]; intros l x.
  - simpl. split; [by intros ?%elem_of_nil | by intros (i & ? & _)].
  - destruct l as [|y r]; simpl.
    + split; [by intros ?%elem_of_nil | by intros (i & _ & ?)].
    + destruct b.
      * rewrite elem_of_cons, IH. split.
        -- intros [->|(i & Hm & Hl)]; [by exists 0 | by exists (S i)].
        -- intros ([|i] & Hm & Hl); simplify_eq/=; [by left | right; by exists i].
      * rewrite IH. split.
        -- intros (i & Hm & Hl). by exists (S i).
        -- intros ([|i] & Hm & Hl); simplify_eq/=. by exists i.
Qed.

Lemma Qsum_nonneg xs : Forall (fun x => (0 <= x)%Q) xs -> (0 <= Qsum xs)%Q.
Proof.
  induction 1 as [|x r Hx _ IH]; [apply Qle_refl|].
  cbn [Qsum foldr]. fold (Qsum r). lra.
Qed.

Lemma mean_nonneg xs :
  xs <> [] -> Forall (fun x => (0 <= x)%Q) xs -> (0 <= mean xs)%Q.
Proof.
  intros Hne Hall. pose proof (mean_spec _ Hne) as Hm.
  pose proof (Qlen_pos _ Hne) as Hn. pose proof (Qsum_nonneg _ Hall) as Hs.
  set (m := mean xs) in *. set (n := Qlen xs) in *. set (s := Qsum xs) in *.
  clearbody m n s.
  destruct (Qlt_le_dec m 0) as [Hneg|]; [|done]. exfalso.
  assert (m * n < 0)%Q by nra. lra.
Qed.

Lemma group_values_elem ks vs g x :
  x ∈ group_values Qeq_bool g ks vs <->
  exists i k, ks !! i = Some (Some k) /\ (k == g)%Q /\ vs !! i = Some (Some x).
Proof.
  unfold group_values, dropna. rewrite list_elem_of_omap. split.
  - intros ([y|] & Hy & [= ->]).
    apply elem_of_mask_filter in Hy as (i & Hm & Hv).
    rewrite list_lookup_fmap in Hm.
    destruct (ks !! i) as [[k|]|] eqn:Hk; simplify_eq/=.
    exists i, k. split; [done|]. split; [by apply Qeq_bool_iff | done].
  - intros (i & k & Hk & Hg & Hv). exists (Some x). split; [|done].
    apply elem_of_mask_filter. exists i. split; [|done].
    rewrite list_lookup_fmap, Hk. simpl. f_equal. by apply Qeq_bool_iff.
Qed.

Lemma cleaning_impact_run t ks va vb :
  readings t "Cleaning" = Some ks ->
  readings t "ModA" = Some va -> readings t "ModB" = Some vb ->
  cleaning_impact t =
  inr (mkFrame (length (group_keys Qeq_bool Qle_bool ks))
         [("Cleaning", Float64 (Some <$> group_keys Qeq_bool Qle_bool ks));
          ("ModA", Float64 (group_means Qeq_bool Qle_bool ks va));
          ("ModB", Float64 (group_means Qeq_bool Qle_bool ks vb))]).
Proof.
  intros Hks Ha Hb. apply readings_Some in Hks, Ha, Hb.
  unfold cleaning_impact, groupby_mean, getitem. rewrite Hks. csimpl.
  rewrite getitem_list_ok.
  2:{ intros c [->|Hc]%elem_of_cons; [by eexists|].
      apply list_elem_of_singleton in Hc as ->. by eexists. }
  csimpl. rewrite Ha, Hb. csimpl. by rewrite length_fmap.
Qed.

(** X15. After a cleaning that found a reading in every key column, the
    cleaning-impact table has the groups of the input's [Cleaning] flag and
    no gap: every group has a mean of [ModA] and of [ModB], and no mean is
    negative. *)
Theorem cleaning_impact_after_clean (t t' : DataFrame) (ks : list (option Q)) :
  wf t -> observed t = true -> clean t = inr t' ->
  readings t "Cleaning" = Some ks ->
  exists r, cleaning_impact t' = inr r /\
    readings r "Cleaning" = Some (Some <$> group_keys Qeq_bool Qle_bool ks) /\
    forall c, c ∈ ["ModA"; "ModB"] ->
      exists ms, readings r c = Some ms /\ length ms = nrows r /\
        forall i, i < nrows r -> exists q, ms !! i = Some (Some q) /\ (0 <= q)%Q.
Proof.
  intros Hwf Hobs Hclean Hks. pose proof Hwf as [Hnd _].
  apply clean_inv in Hclean as [Hk ->]; [|done].
  rewrite observed_spec in Hobs.
  assert (Hks' : readings (cleaned t) "Cleaning" = Some ks).
  { apply readings_Some. apply readings_Some in Hks.
    rewrite assoc_cleaned by done.
    rewrite decide_False; [done | by_computation]. }
  assert (Hcol : forall c, c ∈ ["ModA"; "ModB"] ->
            exists l m, readings t c = Some l /\
              readings (cleaned t) c = Some (clip 0 (fillna l (Some m)))).
  { intros c Hc. assert (Hkey : c ∈ key_columns).
    { apply elem_of_cons in Hc as [->|Hc]; [by_computation|].
      apply list_elem_of_singleton in Hc as ->. by_computation. }
    destruct (Hobs c Hkey) as (l & Hl & Hne).
    destruct (median_of_is_Some _ Hne) as [m Hm].
    exists l, m. split; [done|]. rewrite <- Hm. by apply readings_cleaned. }
  destruct (Hcol "ModA") as (la & ma & Hla & Ha); [left|].
  destruct (Hcol "ModB") as (lb & mb & Hlb & Hb); [right; left|].
  eexists. split; [by apply (cleaning_impact_run _ ks _ _ Hks' Ha Hb)|].
  split; [done|]. cbn [nrows].
  assert (Hmeans : forall l m, length l = length ks ->
            forall i, i < length (group_keys Qeq_bool Qle_bool ks) ->
            exists q, group_means Qeq_bool Qle_bool ks (clip 0 (fillna l (Some m))) !! i
                      = Some (Some q) /\ (0 <= q)%Q).
  { intros l m Hlen i Hi. unfold group_means. rewrite list_lookup_fmap.
    apply lookup_lt_is_Some_2 in Hi as [g Hg]. rewrite Hg. simpl.
    apply list_elem_of_lookup_2, group_keys_sub in Hg.
    unfold dropna in Hg. apply list_elem_of_omap in Hg as ([y|] & Hy & [= ->]).
    apply list_elem_of_lookup_1 in Hy as [j Hj].
    assert (Hjl : j < length l) by (rewrite Hlen; by eapply lookup_lt_Some).
    apply lookup_lt_is_Some_2 in Hjl as [o Ho].
    assert (Hv : clip_value 0 (default m o)
                 ∈ group_values Qeq_bool g ks (clip 0 (fillna l (Some m)))).
    { apply group_values_elem. exists j, g. split; [done|]. split; [reflexivity|].
      by rewrite clip_lookup, fillna_lookup, Ho. }
    unfold group_mean.
    destruct (group_values Qeq_bool g ks _) as [|x xs] eqn:E;
      [by apply elem_of_nil in Hv|].
    eexists. split; [done|]. apply mean_nonneg; [done|].
    apply Forall_forall. intros z Hz. rewrite <- E in Hz.
    apply group_values_elem in Hz as (i' & k' & _ & _ & Hz).
    rewrite clip_lookup in Hz.
    destruct (fillna l (Some m) !! i') as [[w|]|]; simplify_eq/=.
    apply clip_value_nonneg. }
  pose proof (readings_length _ _ _ Hwf Hks) as Hlk.
  intros c [->|Hc]%elem_of_cons.
  - eexists. split; [by apply readings_Some|].
    split; [unfold group_means; by rewrite length_fmap|].
    apply Hmeans. by rewrite (readings_length _ _ _ Hwf Hla).
  - apply list_elem_of_singleton in Hc as ->.
    eexists. split; [by apply readings_Some|].
    split; [unfold group_means; by rewrite length_fmap|].
    apply Hmeans. by rewrite (readings_length _ _ _ Hwf Hlb).
Qed.

(** *** The groups partition the rows *)

Lemma Qsum_fmap_ext {A} (f g : A -> Q) (l : list A) :
  (forall x, x ∈ l -> (f x == g x)%Q) -> (Qsum (f <$> l) == Qsum (g <$> l))%Q.
Proof.
  induction l as [|a r IH]; intros H; [reflexivity|]. csimpl.
  fold (Qsum (f <$> r)). fold (Qsum (g <$> r)).
  rewrite (H a) by left. rewrite IH; [reflexivity|].
  intros x Hx. apply H. by right.
Qed.

Lemma Qsum_fmap_plus {A} (f g : A -> Q) (l : list A) :
  (Qsum ((fun x => f x + g x) <$> l) == Qsum (f <$> l) + Qsum (g <$> l))%Q.
Proof.
  induction l as [|a r IH]; [reflexivity|]. csimpl.
  fold (Qsum ((fun x => (f x + g x)%Q) <$> r)).
  fold (Qsum (f <$> r)). fold (Qsum (g <$> r)). rewrite IH. ring.
Qed.

Lemma Qsum_fmap_zero {A} (l : list A) : (Qsum ((fun _ => 0%Q) <$> l) == 0)%Q.
Proof.
  induction l as [|a r IH]; [reflexivity|]. csimpl.
  fold (Qsum ((fun _ => 0%Q) <$> r)). rewrite IH. ring.
Qed.

(** Among strictly increasing keys, one key at most is equal to [x]. *)
Lemma Qsum_one_match (gs : list Q) x y :
  StronglySorted Qlt gs -> (exists g, g ∈ gs /\ (x == g)%Q) ->
  (Qsum ((fun g => if Qeq_bool x g then y else 0%Q) <$> gs) == y)%Q.
Proof.
  induction 1 as [|g0 r Hs IH Hall]; intros (g & Hg & Hx).
  - by apply elem_of_nil in Hg.
  - csimpl. fold (Qsum ((fun g => if Qeq_bool x g then y else 0%Q) <$> r)).
    destruct (Qeq_bool x g0) eqn:E.
    + apply Qeq_bool_iff in E.
      rewrite (Qsum_fmap_ext _ (fun _ => 0%Q)), Qsum_fmap_zero; [ring|].
      intros g' Hg'. rewrite Forall_forall in Hall. specialize (Hall _ Hg').
      destruct (Qeq_bool x g') eqn:E'; [|reflexivity].
      apply Qeq_bool_iff in E'. exfalso. rewrite <- E, E' in Hall.
      by apply (Qlt_irrefl g').
    + apply elem_of_cons in Hg as [->|Hg].
      * apply Qeq_bool_iff in Hx. congruence.
      * rewrite IH; [ring | by exists g].
Qed.

Lemma group_values_cons g k ks v vs :
  group_values Qeq_bool g (k :: ks) (v :: vs) =
  (if in_group Qeq_bool g k then match v with Some y => [y] | None => [] end else [])
  ++ group_values Qeq_bool g ks vs.
Proof.
  unfold group_values, dropna. csimpl.
  destruct (in_group Qeq_bool g k); [|done]. by destruct v.
Qed.

Lemma groups_partition (gs : list Q) : StronglySorted Qlt gs ->
  forall ks vs,
  (forall x, x ∈ dropna ks -> exists g, g ∈ gs /\ (x == g)%Q) ->
  (Qsum ((fun g => Qsum (group_values Qeq_bool g ks vs)) <$> gs)
   == Qsum (dropna (mask_filter (flag_present <$> ks) vs)))%Q.
Proof.
  intros Hs ks. induction ks as [|k ks' IH]; intros vs Hcov.
  - rewrite (Qsum_fmap_ext _ (fun _ => 0%Q)); [apply Qsum_fmap_zero | done].
  - destruct vs as [|v vs'].
    + rewrite (Qsum_fmap_ext _ (fun _ => 0%Q)); [apply Qsum_fmap_zero|].
      intros g _. unfold group_values. csimpl. reflexivity.
    + rewrite (Qsum_fmap_ext _
                 (fun g => (if in_group Qeq_bool g k then default 0%Q v else 0)
                           + Qsum (group_values Qeq_bool g ks' vs'))%Q).
      2:{ intros g _. rewrite group_values_cons, Qsum_app.
          destruct (in_group Qeq_bool g k); [|reflexivity].
          destruct v; simpl; ring. }
      rewrite Qsum_fmap_plus, IH.
      2:{ intros x Hx. apply Hcov. unfold dropna in *. csimpl.
          destruct k; [by right | done]. }
      destruct k as [x|]; csimpl.
      * rewrite (Qsum_one_match gs x (default 0%Q v) Hs).
        2:{ apply Hcov. unfold dropna. csimpl. left. }
        destruct v as [y|]; csimpl; [|ring].
        fold (Qsum (dropna (mask_filter (flag_present <$> ks') vs'))).
        unfold dropna. reflexivity.
      * rewrite Qsum_fmap_zero. ring.
Qed.

Lemma group_mean_weight g ks vs :
  (Qlen (group_values Qeq_bool g ks vs) * default 0%Q (group_mean Qeq_bool g ks vs)
   == Qsum (group_values Qeq_bool g ks vs))%Q.
Proof.
  unfold group_mean. destruct (group_values Qeq_bool g ks vs) as [|x xs] eqn:E.
  - change (0 * 0 == 0)%Q. ring.
  - simpl default. rewrite Qmult_comm. by apply mean_spec.
Qed.

(** X16. The group means recombine: weighted by the number of readings of
    each group, the means of a column add up to the sum of the readings of
    that column in the rows that have a [Cleaning] flag.  No such reading is
    counted twice or left out. *)
Theorem cleaning_impact_recombines (t r : DataFrame) (ks vs : list (option Q))
    (c : string) :
  cleaning_impact t = inr r -> readings t "Cleaning" = Some ks ->
  c ∈ ["ModA"; "ModB"] -> readings t c = Some vs ->
  readings r c = Some (group_means Qeq_bool Qle_bool ks vs) /\
  (Qsum ((fun g => Qlen (group_values Qeq_bool g ks vs)
                   * default 0%Q (group_mean Qeq_bool g ks vs))
           <$> group_keys Qeq_bool Qle_bool ks)
   == Qsum (dropna (mask_filter (flag_present <$> ks) vs)))%Q.
Proof.
  intros H Hks Hc Hvs.
  destruct (cleaning_impact_inv _ _ _ H Hks) as (_ & _ & _ & Hcols).
  destruct (Hcols c Hc) as (vs' & Hvs' & Hr). simplify_eq. split; [done|].
  rewrite (Qsum_fmap_ext _ (fun g => Qsum (group_values Qeq_bool g ks vs))).
  - apply groups_partition; [apply group_keys_sorted | apply group_keys_cover].
  - intros g _. apply group_mean_weight.
Qed.

Lemma cleaning_impact_recombines_witness :
  readings (mkFrame 2 [("Cleaning", Float64 [Some 0%Q; Some 1%Q]);
                       ("ModA", Float64 [Some (24 # 12)%Q; Some 2%Q]);
                       ("ModB", Float64 [Some (3 # 3)%Q; Some 1%Q])]) "ModA"
  = Some (group_means Qeq_bool Qle_bool [Some 0; Some 0; Some 1; Some 0]%Q
            [Some (1#2); Some (3#2); Some 2; Some 4]%Q).
Proof.
  refine (proj1 (cleaning_impact_recombines sample _
                   [Some 0; Some 0; Some 1; Some 0]%Q
                   [Some (1#2); Some (3#2); Some 2; Some 4]%Q "ModA" _ _ _ _)).
  - by vm_compute.
  - reflexivity.
  - by_computation.
  - reflexivity.
Defined.

End Notebook.

(** ** The cell on the sample tables

    The cell is run with [numpy], the reductions as numpy computes them. *)

Lemma clean_no_missing_witness : exists t', clean numpy outlier_sample = inr t'.
Proof.
  destruct (clean_no_missing numpy outlier_sample) as (t' & Ht' & _);
    [by_computation | reflexivity | exists t'; exact Ht'].
Defined.

Lemma clean_nonnegative_witness : (0 <= clip_value 0 (-2))%Q.
Proof.
  refine (proj1 (clean_nonnegative numpy outlier_sample (cleaned outlier_sample) _ _)
            "DHI" _ 1 _ _ _ _).
  - by_computation.
  - by vm_compute.
  - by_computation.
  - vm_compute. reflexivity.
  - vm_compute. reflexivity.
Defined.


Example detect_outliers_sample : detect_outliers numpy outlier_sample = inr [1; 11].
Proof. by vm_compute. Qed.

(** The rounded numbers on the nine readings 0 and the reading 7: the mean
    0.7 (the nearest binary64 number), the deviation 2.0999999999999996,
    the score 3.0000000000000004. *)
Example rounding_scores :
  let l := replicate 9 (Some 0%Q) ++ [Some 7%Q] in
  nanmean numpy l = Q2F (7 # 10) /\
  nanstd numpy l = 0x1.0ccccccccccccp+1%float /\
  score numpy l 7 = 0x1.8000000000001p+1%float /\
  (3 <? score numpy l 7)%float = true.
Proof. by vm_compute. Qed.


(** On [overflow_sample] the squares of the deviations overflow, the
    deviation is infinite, every score of [GHI] is 0 and no row is flagged. *)
Example detect_outliers_overflow :
  nanstd numpy (replicate 11 (Some (inject_Z (10 ^ 200)))
                ++ [Some (inject_Z (3 * 10 ^ 200))]) = infinity /\
  detect_outliers numpy overflow_sample = inr [].
Proof. by vm_compute. Qed.

Lemma clean_keeps_rows_witness : nrows (cleaned outlier_sample) = 12.
Proof.
  refine (proj1 (clean_keeps_rows numpy outlier_sample (cleaned outlier_sample) _ _)).
  - by_computation.
  - by vm_compute.
Defined.

Lemma impute_uses_own_median_witness :
  exists m, median_of (dropna ([None; Some (-2)%Q] ++ replicate 10 (Some 3%Q))) = Some m.
Proof.
  destruct (impute_uses_own_median numpy outlier_sample "DHI"
              ([None; Some (-2)%Q] ++ replicate 10 (Some 3%Q))
              ["GHI"; "DNI"] ["ModA"; "ModB"; "WS"; "WSgust"])
    as (m & _ & _ & Hm & _).
  - by_computation.
  - reflexivity.
  - reflexivity.
  - reflexivity.
  - by vm_compute.
  - by exists m.
Defined.

Lemma clean_idempotent_witness :
  clean numpy (cleaned outlier_sample) = inr (cleaned outlier_sample).
Proof.
  refine (proj1 (clean_idempotent numpy outlier_sample (cleaned outlier_sample) _ _)).
  - by_computation.
  - by vm_compute.
Defined.

Lemma missing_key_column_is_fatal_witness :
  exists missing, "WS" ∈ missing /\
    benin_cell numpy (fresh no_WS_sample) = (inl (KeyError missing), fresh no_WS_sample).
Proof.
  destruct (missing_key_column_is_fatal numpy (fresh no_WS_sample)
              "data/benin_clean.csv" "WS") as (missing & Hin & Hcell & _).
  - by_computation.
  - by_computation.
  - by exists missing.
Defined.

Example missing_key_column_sample :
  benin_cell numpy (fresh no_WS_sample) = (inl (KeyError ["WS"]), fresh no_WS_sample).
Proof. by vm_compute. Qed.

Lemma drop_comments_optional_witness :
  exists t', clean numpy outlier_sample = inr t' /\ ("Comments" ∉ names t').
Proof.
  destruct (drop_comments_optional numpy outlier_sample) as [_ (t' & Ht' & Hn & _)].
  - by_computation.
  - reflexivity.
  - exists t'. split; [exact Ht' | exact Hn].
Defined.

Lemma export_schema_witness :
  exists k', benin_cell numpy (fresh outlier_sample) = (inr tt, k').
Proof.
  destruct (export_schema numpy (fresh outlier_sample) "data/benin_clean.csv")
    as (k' & file & Hcell & _).
  - by_computation.
  - reflexivity.
  - exists k'. exact Hcell.
Defined.

Lemma all_missing_column_stays_missing_witness :
  exists t', clean numpy sample = inr t' /\
    readings t' "DHI" = Some [None; None; None; None].
Proof.
  destruct (all_missing_column_stays_missing numpy sample "DHI" [None; None; None; None])
    as (_ & _ & t' & Ht' & Hr & _).
  - by_computation.
  - reflexivity.
  - by_computation.
  - reflexivity.
  - reflexivity.
  - exists t'. split; [exact Ht' | exact Hr].
Defined.

Lemma cleaning_cell_rerun_witness :
  exists k2, benin_cell numpy (snd (benin_cell numpy (fresh outlier_sample))) = (inr tt, k2).
Proof.
  destruct (cleaning_cell_rerun numpy "data/benin_clean.csv" (fresh outlier_sample)
              (snd (benin_cell numpy (fresh outlier_sample)))) as (k2 & Hk2 & _).
  - by_computation.
  - by vm_compute.
  - exists k2. exact Hk2.
Defined.

Lemma detect_outliers_sorted_witness : StronglySorted lt [1; 11].
Proof.
  refine (proj1 (detect_outliers_sorted numpy outlier_sample [1; 11] _)).
  by vm_compute.
Defined.

Lemma cleaning_cell_outputs_witness :
  exists labels rows,
    stdout (snd (benin_cell numpy (fresh outlier_sample)))
    = [OutlierCount (length labels); OutlierRows labels rows;
       Exported "data/benin_clean.csv"].
Proof.
  destruct (cleaning_cell_outputs numpy "data/benin_clean.csv" (fresh outlier_sample)
              (snd (benin_cell numpy (fresh outlier_sample))))
    as (labels & rows & _ & Hout & _).
  - by_computation.
  - by vm_compute.
  - exists labels, rows. exact Hout.
Defined.

Lemma outlier_report_shows_input_witness :
  exists labels rows,
    stdout (snd (benin_cell numpy (fresh outlier_sample)))
    = [OutlierCount (length labels); OutlierRows labels rows;
       Exported "data/benin_clean.csv"] /\
    exists lr, readings rows "DHI" = Some lr /\ lr !! 0 = Some (Some (-2)%Q).
Proof.
  destruct (outlier_report_shows_input numpy "data/benin_clean.csv" (fresh outlier_sample)
              (snd (benin_cell numpy (fresh outlier_sample))))
    as (labels & rows & Hl & Hout & Hrows).
  - by_computation.
  - by vm_compute.
  - exists labels, rows. split; [exact Hout|].
    destruct (Hrows "DHI" ([None; Some (-2)%Q] ++ replicate 10 (Some 3%Q)) 0 1)
      as (lr & Hlr & Hj).
    + by_computation.
    + reflexivity.
    + vm_compute in Hl. by injection Hl as <-.
    + exists lr. split; [exact Hlr|]. rewrite Hj. reflexivity.
Defined.

Lemma constant_column_flags_nothing_witness :
  nth 3 (flags numpy (replicate 12 (Some 1%Q))) false = false.
Proof.
  refine (proj2 (proj2 (constant_column_flags_nothing numpy
                          (replicate 12 (Some 1%Q)) 1 3 _))).
  by repeat constructor.
Defined.

Lemma nonnegative_column_is_only_filled_witness :
  readings (cleaned sample) "GHI"
  = Some (fillna [Some 1; Some 2; None; Some 100]%Q
            (median_of (dropna [Some 1; Some 2; None; Some 100]%Q))).
Proof.
  refine (proj1 (nonnegative_column_is_only_filled numpy sample (cleaned sample) "GHI"
                   [Some 1; Some 2; None; Some 100]%Q _ _ _ _ _)).
  - by_computation.
  - by vm_compute.
  - by_computation.
  - reflexivity.
  - repeat constructor; by vm_compute.
Defined.

Lemma export_key_fields_witness :
  exists file, files (snd (benin_cell numpy (fresh outlier_sample))) !! "data/benin_clean.csv"
               = Some file.
Proof.
  destruct (export_key_fields numpy "data/benin_clean.csv" (fresh outlier_sample)
              (snd (benin_cell numpy (fresh outlier_sample)))) as (file & Hf & _).
  - by_computation.
  - reflexivity.
  - by vm_compute.
  - exists file. exact Hf.
Defined.

Lemma missing_values_after_clean_witness :
  assoc "GHI" (missing_values (cleaned sample)) = Some 0
  /\ assoc "DHI" (missing_values (cleaned sample)) = Some 4.
Proof.
  destruct (missing_values_after_clean numpy sample (cleaned sample)) as (H & _).
  - by_computation.
  - by vm_compute.
  - split.
    + apply (H "GHI" [Some 1; Some 2; None; Some 100]%Q); [by_computation | reflexivity].
    + apply (H "DHI" [None; None; None; None]); [by_computation | reflexivity].
Defined.

Lemma cleaning_impact_after_clean_witness :
  exists r, cleaning_impact (cleaned flag_sample) = inr r.
Proof.
  destruct (cleaning_impact_after_clean numpy flag_sample (cleaned flag_sample)
              (replicate 6 (Some 0%Q) ++ replicate 6 (Some 1%Q))) as (r & Hr & _).
  - by_computation.
  - reflexivity.
  - by vm_compute.
  - reflexivity.
  - by exists r.
Defined.
